(** * thriftrw-go code generator: [gen/generator.go]

    A shallow embedding of the Go source generator of thriftrw-go and the
    properties of its declaration collector.

    The [Generator] of the source embeds an [importer] and a [*namespace];
    neither type is defined in [generator.go], so both are modelled from the
    design document (sections 4.1 and 4.2).  The Go standard packages
    [text/template], [go/parser], [go/format] and [fmt] are external: they
    are abstracted by the class [GoLibs], and a small reference instance is
    given to run the generator on concrete fragments. *)

From Stdlib Require Import Ascii.
From stdpp Require Import base option list gmap strings pretty sorting.

Local Open Scope stdpp_scope.

(** ** Go syntax trees ([go/ast], [go/token]) *)

(** [token.Token] restricted to the keyword tokens and a few others; a
    [GenDecl] produced by the parser carries IMPORT, CONST, TYPE or VAR. *)
Inductive Token : Type :=
| ILLEGAL | EOF | COMMENT | IDENT
| BREAK | CASE | CHAN | CONST | CONTINUE | DEFAULT | DEFER | ELSE
| FALLTHROUGH | FOR | FUNC | GO | GOTO | IF | IMPORT | INTERFACE | MAP
| PACKAGE | RANGE | RETURN | SELECT | STRUCT | SWITCH | TYPE | VAR.

#[global] Instance Token_eq_dec : EqDecision Token.
Proof. solve_decision. Defined.

(** [ast.Spec]: the three implementations of the interface.  [ImportSpec]
    has an optional local name and a path, [ValueSpec] a list of names,
    [TypeSpec] one name; the remaining syntax is kept as text. *)
Inductive Spec : Type :=
| ImportSpec (Name : option string) (Path : string)
| ValueSpec (Names : list string) (Rest : string)
| TypeSpec (Name : string) (Type_ : string).

#[global] Instance Spec_eq_dec : EqDecision Spec.
Proof. solve_decision. Defined.

Record GenDeclT : Type := mkGenDecl { Tok : Token; Specs : list Spec }.

#[global] Instance GenDeclT_eq_dec : EqDecision GenDeclT.
Proof. solve_decision. Defined.

(** [ast.Decl]: [*ast.BadDecl], [*ast.FuncDecl] (with [Recv = nil] for a
    top-level function) and [*ast.GenDecl]. *)
Inductive Decl : Type :=
| BadDecl
| FuncDecl (Recv : option string) (Name : string) (Body : string)
| GenDecl (d : GenDeclT).

#[global] Instance Decl_eq_dec : EqDecision Decl.
Proof. solve_decision. Defined.

(** [ast.File]: the package name and the top-level declarations. *)
Record File : Type := mkFile { FileName : string; Decls : list Decl }.

(** ** Errors *)

(** Go errors carry a message only; the model keeps the site that built the
    error, and [Error] below renders the message of [err.Error()].  The
    first three are built outside [generator.go]. *)
Inductive error : Type :=
| TemplateError (msg : string)
| NameCollisionError (name : string)
| DuplicateImportError (path alias : string)
| CouldNotAddExplicitImport (spec : Spec) (err : error)
| CouldNotDeclareConstant (name : string) (err : error)
| CouldNotDeclareType (name : string) (err : error)
| CouldNotDeclareVar (name : string) (err : error)
| UnknownDeclaration (d : GenDeclT)
| CouldNotParse (diag : string) (bs : string).

(** The outcome of a function returning [error]: [nil], an error, or a
    run-time panic (a failed type assertion). *)
Inductive outcome : Type :=
| Nil
| Failed (err : error)
| Panicked.

(** ** Text helpers *)

(* Characters are bytes; a Go string is its UTF-8 bytes. *)

Definition dquote : string := String (ascii_of_nat 34) EmptyString.
Definition newline : string := String (ascii_of_nat 10) EmptyString.

(** [%q] of an identifier: the name between double quotes (identifiers
    need no escaping). *)
Definition quote (s : string) : string := dquote +:+ s +:+ dquote.

Definition isUpper (c : ascii) : bool :=
  (65 <=? nat_of_ascii c) && (nat_of_ascii c <=? 90).
Definition isLower (c : ascii) : bool :=
  (97 <=? nat_of_ascii c) && (nat_of_ascii c <=? 122).
Definition isDigit (c : ascii) : bool :=
  (48 <=? nat_of_ascii c) && (nat_of_ascii c <=? 57).
Definition isSlash (c : ascii) : bool := nat_of_ascii c =? 47.
Definition isUnderscore (c : ascii) : bool := nat_of_ascii c =? 95.

Definition toLower (c : ascii) : ascii :=
  if isUpper c then ascii_of_nat (nat_of_ascii c + 32) else c.

Definition sanitizeChar (c : ascii) : ascii :=
  if isUpper c || isLower c || isDigit c || isUnderscore c
  then toLower c else ascii_of_nat 95.

Fixpoint mapString (f : ascii -> ascii) (s : string) : string :=
  match s with
  | EmptyString => EmptyString
  | String c r => String (f c) (mapString f r)
  end.

(** The part of a path after its last slash. *)
Fixpoint trailingFrom (cur : string) (s : string) : string :=
  match s with
  | EmptyString => String.rev cur
  | String c r =>
      if isSlash c then trailingFrom EmptyString r
      else trailingFrom (String c cur) r
  end.

Definition trailingComponent (path : string) : string :=
  trailingFrom EmptyString path.

(** Modelled from the spec: the messages of [NameCollisionError] and
    [DuplicateImportError], built by the absent [namespace] and [importer];
    the design document (section 7) asks for the offending name, and for
    the offending import path. *)
Definition collisionMessage (name : string) : string :=
  "name " +:+ quote name +:+ " is already taken".
Definition duplicateMessage (path alias : string) : string :=
  "import " +:+ quote path +:+ " conflicts with alias " +:+ quote alias.

(** ** Symbol table ([namespace]) *)

(** Modelled from the spec: the reserved keywords of the target language,
    which [Reserve] refuses (section 4.1); the list is Go's. *)
Definition keywords : list string :=
  [ "break"; "case"; "chan"; "const"; "continue"; "default"; "defer";
    "else"; "fallthrough"; "for"; "func"; "go"; "goto"; "if"; "import";
    "interface"; "map"; "package"; "range"; "return"; "select"; "struct";
    "switch"; "type"; "var" ].

Definition isKeyword (name : string) : bool := bool_decide (name ∈ keywords).

(** Modelled from the spec: the [namespace] type ([newNamespace],
    [Reserve], [Child], [NewName]) is not part of [generator.go].  Section
    4.1: a scope is the set of names claimed in it; [Reserve] fails when the
    name is already claimed in the scope or is a reserved keyword. *)
Record namespace : Type := mkNamespace { taken : gset string }.

Definition newNamespace : namespace := mkNamespace ∅.

(** Modelled from the spec: a name can be claimed in the root scope when
    it is no keyword and not yet claimed (section 4.1). *)
Definition available (name : string) (n : namespace) : bool :=
  negb (isKeyword name) && bool_decide (name ∉ taken n).

(** Modelled from the spec: [Reserve(name)] (section 4.1). *)
Definition namespace_Reserve (name : string) (n : namespace)
  : namespace * option error :=
  if available name n
  then (mkNamespace ({[ name ]} ∪ taken n), None)
  else (n, Some (NameCollisionError name)).

(** Modelled from the spec: the candidates tried by [FreshName], [NewName]
    in the source: the preferred name, then the name with the numeric
    suffixes 2, 3, ... (sections 4.1 and 8, scenario 3). *)
Definition candidate (base : string) (i : nat) : string :=
  match i with
  | 0 => base
  | S j => base +:+ pretty (S i)
  end.

(** The first free candidate from the [i]-th on, among [fuel] of them. *)
Fixpoint firstFree (free : string -> bool) (base : string) (i fuel : nat)
  : option string :=
  match fuel with
  | 0 => None
  | S fuel' =>
      if free (candidate base i) then Some (candidate base i)
      else firstFree free base (S i) fuel'
  end.

(** Modelled from the spec: [FreshName(preferred)] (section 4.1) returns the
    preferred name if free, else the first free suffixed variant, found by
    a search over at most [bound] candidates; [bound] is chosen so that the
    search cannot run out, see [pickName_free]. *)
Definition pickName (free : string -> bool) (base : string) (bound : nat)
  : string :=
  default base (firstFree free base 0 bound).

(** Modelled from the spec: [NewName] on the root scope reserves the name
    it returns. *)
Definition namespace_NewName (base : string) (n : namespace)
  : string * namespace :=
  let name :=
    pickName (fun x => available x n) base
      (size (taken n) + length keywords + 2) in
  (name, mkNamespace ({[ name ]} ∪ taken n)).

(** Modelled from the spec: a child scope ([Child]) holds its own names and
    sees the names of the root scope; its reservations are invisible to the
    root (section 4.1). *)
Definition child_available (name : string) (n : namespace)
    (own : gset string) : bool :=
  available name n && bool_decide (name ∉ own).

Definition child_NewName (base : string) (n : namespace) (own : gset string)
  : string * gset string :=
  let name :=
    pickName (fun x => child_available x n own) base
      (size (taken n) + size own + length keywords + 2) in
  (name, {[ name ]} ∪ own).

(** ** Import registry ([importer]) *)

(** Modelled from the spec: the [importer] type ([newImporter], [Import],
    [AddImportSpec], [importDecl]) is not part of [generator.go].  Section
    4.2: one entry per module path, mapping it to its local alias. *)
Record importer : Type := mkImporter { imports : gmap string string }.

Definition newImporter : importer := mkImporter ∅.

(** Modelled from the spec: the alias derived from a module path is its
    trailing component, sanitized into an identifier and lower-cased. *)
Definition aliasBase (path : string) : string :=
  mapString sanitizeChar (trailingComponent path).

(** Modelled from the spec: [Import(modulePath)] (section 4.2).  A path
    already registered keeps its alias; otherwise the alias is derived from
    the path, made fresh and reserved through the symbol table, which the
    importer shares with the generator. *)
Definition importer_Import (path : string) (i : importer) (n : namespace)
  : string * (importer * namespace) :=
  match imports i !! path with
  | Some alias => (alias, (i, n))
  | None =>
      let '(alias, n') := namespace_NewName (aliasBase path) n in
      (alias, (mkImporter (<[ path := alias ]> (imports i)), n'))
  end.

(** Modelled from the spec: the local name a literal import binds, its
    explicit name or else the name derived from the path (section 4.2). *)
Definition importName (name : option string) (path : string) : string :=
  default (aliasBase path) name.

(** Modelled from the spec: [AddExplicitImport(moduleSpec)] (section 4.2),
    [AddImportSpec] in the source.  A literal import claims its local name
    in the symbol table; a name already taken there, such as an alias
    promised to generated code, is a [DuplicateImportError]; otherwise the
    registry records the path under that name.  A spec that is not an
    import spec cannot be passed (the caller's type assertion panics
    first). *)
Definition importer_AddImportSpec (name : option string) (path : string)
    (i : importer) (n : namespace) : (importer * namespace) * option error :=
  let alias := importName name path in
  match namespace_Reserve alias n with
  | (n', None) => ((mkImporter (<[ path := alias ]> (imports i)), n'), None)
  | (_, Some _) => ((i, n), Some (DuplicateImportError path alias))
  end.

(** Modelled from the spec: the order of the emitted entries, by module
    path (section 4.2). *)
Definition pathLe (a b : string * string) : Prop := String.le a.1 b.1.

#[global] Instance pathLe_dec : RelDecision pathLe.
Proof. intros a b. unfold pathLe. apply _. Defined.

(** Modelled from the spec: the import spec emitted for an entry; the
    alias is written out when it is not the derived name. *)
Definition emittedSpec (entry : string * string) : Spec :=
  let '(path, alias) := entry in
  ImportSpec
    (if bool_decide (alias = aliasBase path) then None else Some alias) path.

(** Modelled from the spec: [Emit()] (section 4.2), [importDecl] in the
    source: [nil] when nothing is imported, else one import block with the
    entries sorted by module path. *)
Definition importer_importDecl (i : importer) : option Decl :=
  match map_to_list (imports i) with
  | [] => None
  | entries =>
      Some (GenDecl (mkGenDecl IMPORT
                       (emittedSpec <$> merge_sort pathLe entries)))
  end.

(** ** The generator *)

(** [type Generator struct]: the embedded importer and namespace (the
    importer's namespace is the generator's: one shared root scope), the
    accepted declarations and the six sets of generated helper names. *)
Record Generator : Type := mkGenerator {
  g_importer : importer;
  g_namespace : namespace;
  decls : list Decl;
  listValueLists : gset string;
  setValueLists : gset string;
  mapItemLists : gset string;
  listReaders : gset string;
  setReaders : gset string;
  mapReaders : gset string
}.

(** [NewGenerator]. *)
Definition NewGenerator : Generator :=
  {| g_importer := newImporter; g_namespace := newNamespace; decls := [];
     listValueLists := ∅; setValueLists := ∅; mapItemLists := ∅;
     listReaders := ∅; setReaders := ∅; mapReaders := ∅ |}.

Definition withScopes (i : importer) (n : namespace) (g : Generator)
  : Generator :=
  {| g_importer := i; g_namespace := n; decls := decls g;
     listValueLists := listValueLists g; setValueLists := setValueLists g;
     mapItemLists := mapItemLists g; listReaders := listReaders g;
     setReaders := setReaders g; mapReaders := mapReaders g |}.

(** The names reserved in the root scope. *)
Definition reserved (g : Generator) : gset string := taken (g_namespace g).

(** The promoted methods [g.Reserve], [g.Import] and [g.AddImportSpec]. *)
Definition Reserve (name : string) (g : Generator)
  : Generator * option error :=
  let '(n, r) := namespace_Reserve name (g_namespace g) in
  (withScopes (g_importer g) n g, r).

Definition Import (path : string) (g : Generator) : string * Generator :=
  let '(alias, (i, n)) :=
    importer_Import path (g_importer g) (g_namespace g) in
  (alias, withScopes i n g).

Definition AddImportSpec (name : option string) (path : string)
    (g : Generator) : Generator * option error :=
  let '((i, n), r) :=
    importer_AddImportSpec name path (g_importer g) (g_namespace g) in
  (withScopes i n g, r).

Definition importDecl (g : Generator) : option Decl :=
  importer_importDecl (g_importer g).

(** [appendDecl] appends a new declaration to the generator. *)
Definition appendDecl (decl : Decl) (g : Generator) : Generator :=
  {| g_importer := g_importer g; g_namespace := g_namespace g;
     decls := decls g ++ [decl];
     listValueLists := listValueLists g; setValueLists := setValueLists g;
     mapItemLists := mapItemLists g; listReaders := listReaders g;
     setReaders := setReaders g; mapReaders := mapReaders g |}.

(** [for _, x := range l { ... }] with a body that may return early: the
    first outcome other than [nil] ends the loop and the function; what the
    earlier iterations did to the generator stays done. *)
Fixpoint rangeOver {A : Type} (body : A -> Generator -> Generator * outcome)
    (l : list A) (g : Generator) : Generator * outcome :=
  match l with
  | [] => (g, Nil)
  | x :: rest =>
      match body x g with
      | (g', Nil) => rangeOver body rest g'
      | stop => stop
      end
  end.

(** [if err := g.Reserve(name); err != nil { return wrap(name, err) }]. *)
Definition reserveOr (wrap : string -> error -> error) (name : string)
    (g : Generator) : Generator * outcome :=
  match Reserve name g with
  | (g', Some err) => (g', Failed (wrap name err))
  | (g', None) => (g', Nil)
  end.

(** ** External packages *)

(** What running a parsed template does: it writes text, calls the
    functions of the [FuncMap] that act on the generator ([import], and
    [newVar] on the child scope; by section 4.3 the wire hooks act on it
    through [import] only, the other functions are pure), and ends normally
    or with an error. *)
Inductive Exec : Type :=
| ExecDone
| ExecError (msg : string)
| ExecWrite (text : string) (k : Exec)
| ExecImport (path : string) (k : string -> Exec)
| ExecNewVar (base : string) (k : string -> Exec).

(** The Go standard packages the generator calls.  [template_Parse] is
    [template.New("thriftrw").Delims("<", ">").Funcs(...).Parse],
    [parser_ParseFile] is [parser.ParseFile] on the file ["thriftrw.go"],
    [format_Node] is [format.Node] with the bytes it writes, [fmt_spec] and
    [fmt_decl] are the [%s] and [%v] renderings of syntax nodes.  A left
    injection is the error message. *)
Class GoLibs : Type := {
  Template : Type;
  Data : Type;
  template_Parse : string -> string + Template;
  template_Execute : Template -> Data -> Exec;
  parser_ParseFile : string -> string + File;
  format_Node : File -> string + string;
  fmt_spec : Spec -> string;
  fmt_decl : GenDeclT -> string
}.

Section Source.
Context `{libs : GoLibs}.

(** [err.Error()]: the format strings of [generator.go], around the
    messages of the errors built outside it. *)
Fixpoint Error (e : error) : string :=
  match e with
  | TemplateError msg => msg
  | NameCollisionError name => collisionMessage name
  | DuplicateImportError path alias => duplicateMessage path alias
  | CouldNotAddExplicitImport spec err =>
      "could not add explicit import " +:+ fmt_spec spec +:+ ": "
        +:+ Error err
  | CouldNotDeclareConstant name err =>
      "could not declare constant " +:+ quote name +:+ ": " +:+ Error err
  | CouldNotDeclareType name err =>
      "could not declare type " +:+ quote name +:+ ": " +:+ Error err
  | CouldNotDeclareVar name err =>
      "could not declare var " +:+ quote name +:+ ": " +:+ Error err
  | UnknownDeclaration d => "unknown declaration: " +:+ fmt_decl d
  | CouldNotParse diag bs =>
      "could not parse generated code: " +:+ diag +:+ ":" +:+ newline +:+ bs
  end.

(** [tmpl.Execute(&buff, data)] with the function map of [TextTemplate]:
    [import] is [g.Import]; [newVar] is the [NewName] of the one child scope
    made when the map is built.  Returns the generator, the buffer and the
    error of [Execute]. *)
Fixpoint execute (e : Exec) (child : gset string) (buff : string)
    (g : Generator) : Generator * (string * option error) :=
  match e with
  | ExecDone => (g, (buff, None))
  | ExecError msg => (g, (buff, Some (TemplateError msg)))
  | ExecWrite text k => execute k child (buff +:+ text) g
  | ExecImport path k =>
      let '(alias, g') := Import path g in
      execute (k alias) child buff g'
  | ExecNewVar base k =>
      let '(name, child') := child_NewName base (g_namespace g) child in
      execute (k name) child' buff g
  end.

(** [TextTemplate] renders the given template with the given template
    context. *)
Definition TextTemplate (s : string) (data : Data) (g : Generator)
  : Generator * (string * option error) :=
  match template_Parse s with
  | inl msg => (g, ("", Some (TemplateError msg)))
  | inr tmpl =>
      match execute (template_Execute tmpl data) ∅ "" g with
      | (g', (_, Some err)) => (g', ("", Some err))
      | (g', (buff, None)) => (g', (buff, None))
      end
  end.

Definition header : string := "package thriftrw" +:+ newline +:+ newline.

(** [renderTemplate]; the bytes are [None] for the [nil] slice.  Writing to
    a [bytes.Buffer] returns no error, so the second [return nil, err] is
    never taken. *)
Definition renderTemplate (s : string) (data : Data) (g : Generator)
  : Generator * (option string * option error) :=
  let buff := header in
  match TextTemplate s data g with
  | (g', (_, Some err)) => (g', (None, Some err))
  | (g', (out, None)) => (g', (Some (buff +:+ out), None))
  end.

(** The three loop bodies over [d.Specs]; a spec of another dynamic type
    fails the type assertion. *)
Definition recordImportSpec (spec : Spec) (g : Generator)
  : Generator * outcome :=
  match spec with
  | ImportSpec name path =>
      match AddImportSpec name path g with
      | (g', Some err) => (g', Failed (CouldNotAddExplicitImport spec err))
      | (g', None) => (g', Nil)
      end
  | _ => (g, Panicked)
  end.

Definition recordValueSpec (wrap : string -> error -> error) (spec : Spec)
    (g : Generator) : Generator * outcome :=
  match spec with
  | ValueSpec names _ => rangeOver (reserveOr wrap) names g
  | _ => (g, Panicked)
  end.

Definition recordTypeSpec (spec : Spec) (g : Generator)
  : Generator * outcome :=
  match spec with
  | TypeSpec name _ => reserveOr CouldNotDeclareType name g
  | _ => (g, Panicked)
  end.

(** [recordGenDeclNames]. *)
Definition recordGenDeclNames (d : GenDeclT) (g : Generator)
  : Generator * outcome :=
  match Tok d with
  | IMPORT => rangeOver recordImportSpec (Specs d) g
  | CONST => rangeOver (recordValueSpec CouldNotDeclareConstant) (Specs d) g
  | TYPE => rangeOver recordTypeSpec (Specs d) g
  | VAR => rangeOver (recordValueSpec CouldNotDeclareVar) (Specs d) g
  | _ => (g, Failed (UnknownDeclaration d))
  end.

(** The switch on the dynamic type of a top-level declaration. *)
Definition recordDeclNames (decl : Decl) (g : Generator)
  : Generator * outcome :=
  match decl with
  | FuncDecl None name _ => reserveOr (fun _ err => err) name g
  | FuncDecl (Some _) _ _ => (g, Nil)
  | GenDecl d => recordGenDeclNames d g
  | BadDecl => (g, Nil)
  end.

(** The body of the loop over [f.Decls]: record the names, then append. *)
Definition declare (decl : Decl) (g : Generator) : Generator * outcome :=
  match recordDeclNames decl g with
  | (g', Nil) => (appendDecl decl g', Nil)
  | stop => stop
  end.

(** [DeclareFromTemplate].  On a rendering error the bytes are not looked
    at; a [nil] slice reads as the empty source. *)
Definition DeclareFromTemplate (s : string) (data : Data) (g : Generator)
  : Generator * outcome :=
  match renderTemplate s data g with
  | (g', (_, Some err)) => (g', Failed err)
  | (g', (bs, None)) =>
      let src := default "" bs in
      match parser_ParseFile src with
      | inl diag => (g', Failed (CouldNotParse diag src))
      | inr f => rangeOver declare (Decls f) g'
      end
  end.

(** The file [Write] hands to the formatter. *)
Definition writtenFile (g : Generator) : File :=
  let decls0 := [] in
  let decls1 :=
    match importDecl g with
    | Some d => decls0 ++ [d]
    | None => decls0
    end in
  {| FileName := "todo"; Decls := decls1 ++ decls g |}.

(** [Write]: the error of [format.Node], or the bytes written. *)
Definition Write (g : Generator) : string + string :=
  format_Node (writtenFile g).

(** A sequence of [DeclareFromTemplate] calls on one generator, whatever
    each call returns. *)
Definition declareAll (calls : list (string * Data)) (g : Generator)
  : Generator :=
  foldl (fun g c => (DeclareFromTemplate c.1 c.2 g).1) g calls.

(** ** Vocabulary of the properties *)

(** The declarations of the fragment a call works on: the generator after
    rendering and the parsed top-level declarations, when the template
    renders and the rendered text parses. *)
Definition fragment (s : string) (data : Data) (g : Generator)
  : option (Generator * list Decl) :=
  match renderTemplate s data g with
  | (g', (Some bs, None)) =>
      match parser_ParseFile bs with
      | inr f => Some (g', Decls f)
      | inl _ => None
      end
  | _ => None
  end.

(** The calls of a sequence all return [nil]: the final generator and the
    declarations of the fragments, in call order. *)
Fixpoint acceptAll (calls : list (string * Data)) (g : Generator)
  : option (Generator * list Decl) :=
  match calls with
  | [] => Some (g, [])
  | (s, data) :: rest =>
      match fragment s data g, DeclareFromTemplate s data g with
      | Some (_, ds), (g', Nil) =>
          match acceptAll rest g' with
          | Some (gf, dss) => Some (gf, ds ++ dss)
          | None => None
          end
      | _, _ => None
      end
  end.

(** The generators that the exported operations build. *)
Inductive reachable : Generator -> Prop :=
| reach_new : reachable NewGenerator
| reach_declare s data g :
    reachable g -> reachable (DeclareFromTemplate s data g).1
| reach_text s data g : reachable g -> reachable (TextTemplate s data g).1
| reach_import path g : reachable g -> reachable (Import path g).2
| reach_reserve name g : reachable g -> reachable (Reserve name g).1
| reach_add name path g :
    reachable g -> reachable (AddImportSpec name path g).1.

(** [AddImportSpec] succeeds on each import spec of a list, once per spec
    and in order, taking the generator from [g] to [g']. *)
Inductive addedInOrder : list Spec -> Generator -> Generator -> Prop :=
| added_nil g : addedInOrder [] g g
| added_cons name path rest g g1 g' :
    AddImportSpec name path g = (g1, None) ->
    addedInOrder rest g1 g' ->
    addedInOrder (ImportSpec name path :: rest) g g'.

End Source.

(** The top-level names a declaration introduces in the package scope:
    none for a method, an import or a bad declaration. *)
Definition specNames (spec : Spec) : list string :=
  match spec with
  | ImportSpec _ _ => []
  | ValueSpec names _ => names
  | TypeSpec name _ => [name]
  end.

Definition declNames (decl : Decl) : list string :=
  match decl with
  | FuncDecl None name _ => [name]
  | FuncDecl (Some _) _ _ => []
  | GenDecl d =>
      match Tok d with
      | CONST | TYPE | VAR => concat (specNames <$> Specs d)
      | _ => []
      end
  | BadDecl => []
  end.

Definition declared (ds : list Decl) : list string :=
  concat (declNames <$> ds).

Definition isMethod (decl : Decl) : bool :=
  match decl with
  | FuncDecl (Some _) _ _ => true
  | _ => false
  end.

(** The registry's bookkeeping is consistent: every alias is reserved and
    no alias stands for two paths. *)
Definition registry_ok (g : Generator) : Prop :=
  (forall path alias,
      imports (g_importer g) !! path = Some alias -> alias ∈ reserved g) /\
  (forall p q alias,
      imports (g_importer g) !! p = Some alias ->
      imports (g_importer g) !! q = Some alias -> p = q).

(** [g'] differs from [g] at most by imports registered since, with their
    aliases reserved: same declarations, and every name reserved since is
    the alias of a path registered since. *)
Definition importsOnly (g g' : Generator) : Prop :=
  decls g' = decls g /\
  reserved g ⊆ reserved g' /\
  imports (g_importer g) ⊆ imports (g_importer g') /\
  (forall x, x ∈ reserved g' -> x ∉ reserved g ->
     exists path, imports (g_importer g') !! path = Some x /\
                  imports (g_importer g) !! path = None).

(** [g'] keeps the declarations and the reserved names of [g], and the
    registry's consistency. *)
Definition registers (g g' : Generator) : Prop :=
  decls g' = decls g /\
  reserved g ⊆ reserved g' /\
  (registry_ok g -> registry_ok g').

(** The names of a list are distinct, free in [g] and reserved in [g']. *)
Definition reservedNew (names : list string) (g g' : Generator) : Prop :=
  NoDup names /\
  (forall x, x ∈ names -> x ∉ reserved g) /\
  (forall x, x ∈ names -> x ∈ reserved g').

(** The accepted declarations introduce distinct names, all reserved. *)
Definition names_ok (g : Generator) : Prop :=
  NoDup (declared (decls g)) /\
  (forall x, x ∈ declared (decls g) -> x ∈ reserved g).

(** ** Vocabulary of the further properties *)

(** A spec has the dynamic type that [recordGenDeclNames] asserts under
    the token of its declaration; under another token nothing is
    asserted. *)
Definition specMatches (tok : Token) (spec : Spec) : bool :=
  match tok, spec with
  | IMPORT, ImportSpec _ _ => true
  | IMPORT, _ => false
  | (CONST | VAR), ValueSpec _ _ => true
  | (CONST | VAR), _ => false
  | TYPE, TypeSpec _ _ => true
  | TYPE, _ => false
  | _, _ => true
  end.

(** Every type assertion made on the specs of a declaration holds, as it
    does for the declarations the parser builds. *)
Definition specsMatch (decl : Decl) : bool :=
  match decl with
  | GenDecl d => forallb (specMatches (Tok d)) (Specs d)
  | _ => true
  end.

(** The tokens [recordGenDeclNames] has a case for. *)
Definition knownToken (tok : Token) : bool :=
  match tok with
  | IMPORT | CONST | TYPE | VAR => true
  | _ => false
  end.

(** The declarations that are handled by reserving names only: functions,
    methods, bad declarations, and constant, type and variable declarations
    whose specs have the asserted type. *)
Definition namesOnly (decl : Decl) : bool :=
  match decl with
  | GenDecl d =>
      match Tok d with
      | CONST | TYPE | VAR => forallb (specMatches (Tok d)) (Specs d)
      | _ => false
      end
  | _ => true
  end.

(** How the error of [Reserve] is returned for a name of a declaration:
    wrapped with the kind and the name for a constant, type or variable,
    as it is for a function. *)
Definition wrapOf (decl : Decl) : string -> error -> error :=
  match decl with
  | GenDecl d =>
      match Tok d with
      | CONST => CouldNotDeclareConstant
      | TYPE => CouldNotDeclareType
      | VAR => CouldNotDeclareVar
      | _ => fun _ err => err
      end
  | _ => fun _ err => err
  end.

(** The errors that report a name that could not be reserved: the error
    of [Reserve] as it is, or wrapped as "could not declare ...". *)
Definition isNameCollision (err : error) : bool :=
  match err with
  | NameCollisionError _
  | CouldNotDeclareConstant _ _
  | CouldNotDeclareType _ _
  | CouldNotDeclareVar _ _ => true
  | _ => false
  end.

(** Every alias of [g'] is an alias of [g] for the same path or a name
    that was free in [g]; nothing reserved in [g] is released. *)
Definition aliasesFresh (g g' : Generator) : Prop :=
  reserved g ⊆ reserved g' /\
  forall path alias,
    imports (g_importer g') !! path = Some alias ->
    imports (g_importer g) !! path = Some alias \/ alias ∉ reserved g.

(** No import alias is a name introduced by an accepted declaration. *)
Definition aliases_apart (g : Generator) : Prop :=
  forall path alias,
    imports (g_importer g) !! path = Some alias ->
    alias ∉ declared (decls g).

(** ** A reference instance of the external packages

    A small template language and a line-oriented subset of Go, enough to
    run the generator on concrete fragments: templates made of text and the
    actions [<.Field>], [<import "path">] and [<newVar "name">]; sources
    made of a package clause followed by one declaration per line. *)
Module RefLibs.

Inductive Action : Type :=
| AText (text : string)
| AField (field : string)
| AImport (path : string)
| ANewVar (base : string).

Fixpoint stripPrefix (p s : string) : option string :=
  match p with
  | EmptyString => Some s
  | String a p' =>
      match s with
      | String b s' => if Ascii.eqb a b then stripPrefix p' s' else None
      | EmptyString => None
      end
  end.

(** The text before and after the first occurrence of a character. *)
Fixpoint untilChar (c : ascii) (s : string) : option (string * string) :=
  match s with
  | EmptyString => None
  | String a r =>
      if Ascii.eqb a c then Some (EmptyString, r)
      else match untilChar c r with
           | Some (before, after) => Some (String a before, after)
           | None => None
           end
  end.

(** A string literal on its own: the text between its quotes. *)
Definition unquote (s : string) : option string :=
  match stripPrefix dquote s with
  | Some r =>
      match untilChar (ascii_of_nat 34) r with
      | Some (body, EmptyString) => Some body
      | _ => None
      end
  | None => None
  end.

Definition isIdentChar (c : ascii) : bool :=
  isUpper c || isLower c || isDigit c || isUnderscore c.

(** The longest identifier at the start of a text, and what follows. *)
Fixpoint takeIdent (s : string) : string * string :=
  match s with
  | EmptyString => (EmptyString, EmptyString)
  | String c r =>
      if isIdentChar c
      then let '(name, rest) := takeIdent r in (String c name, rest)
      else (EmptyString, s)
  end.

Definition parseAction (body : string) : string + Action :=
  match stripPrefix "." body with
  | Some field => inr (AField field)
  | None =>
      match stripPrefix "import " body ≫= unquote with
      | Some path => inr (AImport path)
      | None =>
          match stripPrefix "newVar " body ≫= unquote with
          | Some base => inr (ANewVar base)
          | None => inl ("template: thriftrw: bad action " +:+ body)
          end
      end
  end.

Definition flushText (cur : string) (k : list Action) : list Action :=
  match cur with
  | EmptyString => k
  | _ => AText (String.rev cur) :: k
  end.

(** Scanning a template with the delimiters [<] and [>]. *)
Fixpoint scan (inAction : bool) (cur : string) (s : string)
  : string + list Action :=
  match s with
  | EmptyString =>
      if inAction then inl "template: thriftrw: unclosed action"
      else inr (flushText cur [])
  | String c r =>
      if inAction then
        if Ascii.eqb c ">" then
          match parseAction (String.rev cur), scan false EmptyString r with
          | inl msg, _ => inl msg
          | inr _, inl msg => inl msg
          | inr a, inr k => inr (a :: k)
          end
        else scan true (String c cur) r
      else
        if Ascii.eqb c "<" then
          match scan true EmptyString r with
          | inl msg => inl msg
          | inr k => inr (flushText cur k)
          end
        else scan false (String c cur) r
  end.

Definition parseTemplate (s : string) : string + list Action :=
  scan false EmptyString s.

Fixpoint field (name : string) (data : list (string * string))
  : option string :=
  match data with
  | [] => None
  | (k, v) :: rest => if bool_decide (k = name) then Some v else field name rest
  end.

(** Actions run in order; a missing field ends the run with an error. *)
Fixpoint run (t : list Action) (data : list (string * string)) : Exec :=
  match t with
  | [] => ExecDone
  | AText text :: k => ExecWrite text (run k data)
  | AField name :: k =>
      match field name data with
      | Some v => ExecWrite v (run k data)
      | None => ExecError ("template: thriftrw: can't evaluate field " +:+ name)
      end
  | AImport path :: k =>
      ExecImport path (fun alias => ExecWrite alias (run k data))
  | ANewVar base :: k =>
      ExecNewVar base (fun name => ExecWrite name (run k data))
  end.

Fixpoint lines (s : string) : list string :=
  match s with
  | EmptyString => [EmptyString]
  | String c r =>
      if Ascii.eqb c (ascii_of_nat 10) then EmptyString :: lines r
      else match lines r with
           | l :: tl => String c l :: tl
           | [] => [String c EmptyString]
           end
  end.

Definition expected (what found : string) : string :=
  "expected " +:+ what +:+ ", found '" +:+ found +:+ "'".

Definition named (mk : string -> string -> Decl) (r : string)
  : string + Decl :=
  match takeIdent r with
  | (EmptyString, rest) => inl (expected "'IDENT'" rest)
  | (name, rest) => inr (mk name rest)
  end.

Definition parseImport (r : string) : string + Decl :=
  match unquote r with
  | Some path => inr (GenDecl (mkGenDecl IMPORT [ImportSpec None path]))
  | None =>
      match takeIdent r with
      | (EmptyString, rest) => inl (expected "import path" rest)
      | (name, rest) =>
          match stripPrefix " " rest ≫= unquote with
          | Some path =>
              inr (GenDecl (mkGenDecl IMPORT [ImportSpec (Some name) path]))
          | None => inl (expected "import path" rest)
          end
      end
  end.

Definition parseFunc (r : string) : string + Decl :=
  match stripPrefix "(" r with
  | Some r' =>
      match untilChar ")" r' with
      | Some (recv, after) =>
          match stripPrefix " " after with
          | Some r'' => named (FuncDecl (Some recv)) r''
          | None => inl (expected "'IDENT'" after)
          end
      | None => inl (expected "')'" r')
      end
  | None => named (FuncDecl None) r
  end.

(** One declaration per line, told by its keyword. *)
Definition parseDeclLine (l : string) : string + Decl :=
  match stripPrefix "type " l with
  | Some r =>
      named (fun n t => GenDecl (mkGenDecl TYPE [TypeSpec n t])) r
  | None =>
  match stripPrefix "const " l with
  | Some r =>
      named (fun n t => GenDecl (mkGenDecl CONST [ValueSpec [n] t])) r
  | None =>
  match stripPrefix "var " l with
  | Some r =>
      named (fun n t => GenDecl (mkGenDecl VAR [ValueSpec [n] t])) r
  | None =>
  match stripPrefix "import " l with
  | Some r => parseImport r
  | None =>
  match stripPrefix "func " l with
  | Some r => parseFunc r
  | None => inl (expected "declaration" l)
  end end end end end.

Fixpoint parseDeclLines (ls : list string) : string + list Decl :=
  match ls with
  | [] => inr []
  | EmptyString :: rest => parseDeclLines rest
  | l :: rest =>
      match parseDeclLine l, parseDeclLines rest with
      | inl msg, _ => inl msg
      | inr _, inl msg => inl msg
      | inr d, inr ds => inr (d :: ds)
      end
  end.

Definition parseFile (src : string) : string + File :=
  match lines src with
  | first :: rest =>
      match stripPrefix "package " first with
      | Some name =>
          match parseDeclLines rest with
          | inl msg => inl msg
          | inr ds => inr (mkFile name ds)
          end
      | None => inl (expected "'package'" first)
      end
  | [] => inl (expected "'package'" "EOF")
  end.

Definition printSpec (kw : string) (spec : Spec) : string :=
  match spec with
  | ImportSpec None path => kw +:+ " " +:+ quote path
  | ImportSpec (Some name) path => kw +:+ " " +:+ name +:+ " " +:+ quote path
  | ValueSpec names rest => kw +:+ " " +:+ String.concat ", " names +:+ rest
  | TypeSpec name t => kw +:+ " " +:+ name +:+ t
  end.

Definition printTok (t : Token) : string :=
  match t with
  | IMPORT => "import" | CONST => "const" | TYPE => "type" | VAR => "var"
  | _ => "?"
  end.

Definition printGenDecl (d : GenDeclT) : string :=
  String.concat newline (printSpec (printTok (Tok d)) <$> Specs d).

Definition printDecl (d : Decl) : string + string :=
  match d with
  | BadDecl => inl "format.Node internal error (bad declaration)"
  | FuncDecl None name body => inr ("func " +:+ name +:+ body)
  | FuncDecl (Some recv) name body =>
      inr ("func (" +:+ recv +:+ ") " +:+ name +:+ body)
  | GenDecl d => inr (printGenDecl d)
  end.

Fixpoint printDecls (ds : list Decl) : string + string :=
  match ds with
  | [] => inr EmptyString
  | d :: rest =>
      match printDecl d, printDecls rest with
      | inl msg, _ => inl msg
      | inr _, inl msg => inl msg
      | inr t, inr ts => inr (t +:+ newline +:+ ts)
      end
  end.

Definition printFile (f : File) : string + string :=
  match printDecls (Decls f) with
  | inl msg => inl msg
  | inr text => inr ("package " +:+ FileName f +:+ newline +:+ text)
  end.

#[export] Instance libs : GoLibs := {|
  Template := list Action;
  Data := list (string * string);
  template_Parse := parseTemplate;
  template_Execute := run;
  parser_ParseFile := parseFile;
  format_Node := printFile;
  fmt_spec := printSpec "import";
  fmt_decl := printGenDecl
|}.

(** The template [type <.Name> int32] of the source's documentation, and
    its data. *)
Definition typeTemplate : string := "type <.Name> int32".
Definition withName (name : string) : list (string * string) :=
  [("Name", name)].

(** Further templates: two declarations in one fragment; a method; a
    fragment with its own package clause; fragments that import. *)
Definition twoTypes : string :=
  "type A int32" +:+ newline +:+ "type <.Name> int32".
Definition methodTemplate : string := "func (v *<.Name>) String() string".
Definition packageTemplate : string := "package <.Name>".
Definition importThenVar : string :=
  "var x = <import " +:+ quote "go/ast" +:+ ">.X".
Definition importThenMissing : string :=
  "var x = <import " +:+ quote "go/ast" +:+ ">.X <.Missing>".
Definition importThenStatement : string :=
  "<import " +:+ quote "fmt" +:+ ">.Println()".
Definition literalImport : string := "import " +:+ quote "fmt".
Definition duplicateImport : string :=
  importThenVar +:+ newline +:+ "import " +:+ quote "go/ast".

Definition fooDecl : Decl :=
  GenDecl (mkGenDecl TYPE [TypeSpec "Foo" " int32"]).
Definition varDecl : Decl :=
  GenDecl (mkGenDecl VAR [ValueSpec ["x"] " = ast.X"]).

(** Generators reached by one call. *)
Definition afterFoo : Generator :=
  (DeclareFromTemplate typeTemplate (withName "Foo") NewGenerator).1.
Definition afterImport : Generator := (Import "go/ast" NewGenerator).2.
Definition afterVar : Generator :=
  (DeclareFromTemplate importThenVar [] NewGenerator).1.

End RefLibs.

(** * Properties *)

Section Properties.
Context `{libs : GoLibs}.

(** ** The symbol table: fresh names *)

Lemma firstFree_Some free base i fuel name :
  firstFree free base i fuel = Some name -> free name = true.
Proof.
  revert i. induction fuel as [|fuel IH]; intros i; simpl; [done|].
  destruct (free (candidate base i)) eqn:Hfree.
  - intros [= <-]. exact Hfree.
  - apply IH.
Qed.

Lemma firstFree_None free base i fuel j :
  firstFree free base i fuel = None -> i <= j < i + fuel ->
  free (candidate base j) = false.
Proof.
  revert i. induction fuel as [|fuel IH]; intros i; simpl; [lia|].
  destruct (free (candidate base i)) eqn:Hfree; [done|].
  intros Hnone Hj. destruct (decide (j = i)) as [->|Hne]; [done|].
  apply (IH (S i)); [done | lia].
Qed.

Lemma candidate_suffixed_inj base i j :
  candidate base (S i) = candidate base (S j) -> i = j.
Proof.
  unfold candidate. intros Heq.
  apply (inj (String.app base)) in Heq.
  apply (inj pretty) in Heq. lia.
Qed.

Lemma pickName_free free base bound (k : list string) :
  (forall x, free x = false -> x ∈ k) ->
  length k + 2 <= bound ->
  free (pickName free base bound) = true.
Proof.
  intros Hk Hbound. unfold pickName.
  destruct (firstFree free base 0 bound) as [name|] eqn:Hfirst; simpl.
  { by eapply firstFree_Some. }
  exfalso.
  set (l := (fun i => candidate base (S i)) <$> seq 0 (S (length k))).
  assert (NoDup l) as Hnd.
  { apply NoDup_fmap_2_strong; [|apply NoDup_seq].
    intros i j _ _. apply candidate_suffixed_inj. }
  assert (forall x, x ∈ l -> x ∈ k) as Hin.
  { intros x [i [-> Hi]]%list_elem_of_fmap. apply Hk.
    apply elem_of_seq in Hi.
    eapply firstFree_None; [exact Hfirst | lia]. }
  pose proof (submseteq_length _ _ (NoDup_submseteq _ _ Hnd Hin)) as Hlen.
  unfold l in Hlen. rewrite length_fmap, length_seq in Hlen. lia.
Qed.

Lemma available_true name n :
  available name n = true <-> (name ∉ keywords) /\ (name ∉ taken n).
Proof.
  unfold available, isKeyword. rewrite andb_true_iff, negb_true_iff.
  rewrite bool_decide_eq_false, bool_decide_eq_true. done.
Qed.

Lemma available_false name n :
  available name n = false -> name ∈ elements (taken n) ++ keywords.
Proof.
  intros Hf. rewrite elem_of_app, elem_of_elements.
  destruct (decide (name ∈ taken n)); [by left|].
  destruct (decide (name ∈ keywords)); [by right|].
  assert (available name n = true) by by apply available_true.
  congruence.
Qed.

Lemma namespace_NewName_fresh base n :
  available (namespace_NewName base n).1 n = true.
Proof.
  unfold namespace_NewName; simpl.
  apply (pickName_free (fun x => available x n) base _
           (elements (taken n) ++ keywords)).
  - intros x. apply available_false.
  - rewrite length_app. unfold size, set_size. simpl. lia.
Qed.

Lemma child_NewName_fresh base n own :
  child_available (child_NewName base n own).1 n own = true.
Proof.
  unfold child_NewName; simpl.
  apply (pickName_free (fun x => child_available x n own) base _
           (elements (taken n) ++ elements own ++ keywords)).
  - intros x. unfold child_available. intros Hf.
    apply andb_false_iff in Hf as [Hf|Hf].
    + apply available_false in Hf.
      rewrite !elem_of_app in *. tauto.
    + apply bool_decide_eq_false in Hf.
      rewrite !elem_of_app, !elem_of_elements.
      destruct (decide (x ∈ own)); [auto | done].
  - rewrite !length_app. unfold size, set_size. simpl. lia.
Qed.

(** ** The import registry *)

Lemma withScopes_same g : withScopes (g_importer g) (g_namespace g) g = g.
Proof. by destruct g. Qed.

Lemma Reserve_cases name g :
  (available name (g_namespace g) = true /\
   Reserve name g =
     (withScopes (g_importer g)
        (mkNamespace ({[ name ]} ∪ reserved g)) g, None)) \/
  (available name (g_namespace g) = false /\
   Reserve name g = (g, Some (NameCollisionError name))).
Proof.
  unfold Reserve, namespace_Reserve.
  destruct (available name (g_namespace g)) eqn:Hav; [left | right].
  - done.
  - by rewrite withScopes_same.
Qed.

Lemma importsOnly_refl g : importsOnly g g.
Proof. repeat split; [done | done | intros x Hx Hnx; by destruct Hnx]. Qed.

Lemma importsOnly_trans g1 g2 g3 :
  importsOnly g1 g2 -> importsOnly g2 g3 -> importsOnly g1 g3.
Proof.
  intros (Hd1 & Hr1 & Hi1 & Hn1) (Hd2 & Hr2 & Hi2 & Hn2).
  split; [congruence|]. split; [set_solver|].
  split; [by etrans|].
  intros x Hx Hnx. destruct (decide (x ∈ reserved g2)) as [Hx2|Hx2].
  - destruct (Hn1 x Hx2 Hnx) as (path & Hp & Hnone).
    exists path. split; [|done].
    by eapply lookup_weaken.
  - destruct (Hn2 x Hx Hx2) as (path & Hp & Hnone).
    exists path. split; [done|].
    destruct (imports (g_importer g1) !! path) as [a|] eqn:Ha; [|done].
    eapply lookup_weaken in Ha; [|exact Hi1]. congruence.
Qed.

Lemma Import_importsOnly path g : importsOnly g (Import path g).2.
Proof.
  unfold Import, importer_Import.
  destruct (imports (g_importer g) !! path) as [alias|] eqn:Hlook.
  - simpl. rewrite withScopes_same. apply importsOnly_refl.
  - destruct (namespace_NewName _ _) as [alias n'] eqn:Hnew. simpl.
    unfold namespace_NewName in Hnew. injection Hnew as Halias Hn'.
    subst n'. unfold importsOnly, reserved. simpl.
    split; [done|]. split; [set_solver|].
    split; [by apply insert_subseteq|].
    intros x Hx Hnx. exists path.
    apply elem_of_union in Hx as [Hx%elem_of_singleton|Hx]; [|done].
    rewrite Hx, Halias. by rewrite lookup_insert_eq.
Qed.

Lemma Import_registered path g :
  imports (g_importer (Import path g).2) !! path = Some (Import path g).1.
Proof.
  unfold Import, importer_Import.
  destruct (imports (g_importer g) !! path) as [alias|] eqn:Hlook.
  - simpl. done.
  - destruct (namespace_NewName _ _) as [alias n'] eqn:Hnew. simpl.
    by rewrite lookup_insert_eq.
Qed.

Lemma Import_known path alias g :
  imports (g_importer g) !! path = Some alias -> Import path g = (alias, g).
Proof.
  intros Hlook. unfold Import, importer_Import. rewrite Hlook.
  by rewrite withScopes_same.
Qed.

Lemma registry_ok_insert path alias g n' :
  registry_ok g ->
  alias ∉ reserved g ->
  taken n' = {[ alias ]} ∪ reserved g ->
  registry_ok
    (withScopes (mkImporter (<[ path := alias ]> (imports (g_importer g))))
       n' g).
Proof.
  intros [Hres Hinj] Hfresh Hn'. unfold registry_ok, reserved. simpl.
  split.
  - intros p a. rewrite lookup_insert. case_decide as Hp.
    + intros [= <-]. rewrite Hn'. apply elem_of_union. left.
      by apply elem_of_singleton.
    + intros Ha. apply Hres in Ha. rewrite Hn'. apply elem_of_union.
      by right.
  - intros p q a. rewrite !lookup_insert.
    case_decide as Hp; case_decide as Hq; try congruence.
    + intros [= <-] Ha. apply Hres in Ha. done.
    + intros Ha [= <-]. apply Hres in Ha. done.
    + apply Hinj.
Qed.

Lemma Import_registry_ok path g :
  registry_ok g -> registry_ok (Import path g).2.
Proof.
  intros Hok. unfold Import, importer_Import.
  destruct (imports (g_importer g) !! path) as [alias|] eqn:Hlook.
  - simpl. by rewrite withScopes_same.
  - pose proof (namespace_NewName_fresh (aliasBase path) (g_namespace g))
      as Hfresh.
    destruct (namespace_NewName _ _) as [alias n'] eqn:Hnew. simpl in *.
    apply available_true in Hfresh as [_ Hfresh].
    apply registry_ok_insert; try done.
    unfold namespace_NewName in Hnew. by injection Hnew as <- <-.
Qed.

Lemma AddImportSpec_cases name path g :
  (available (importName name path) (g_namespace g) = true /\
   AddImportSpec name path g
   = (withScopes
        (mkImporter
           (<[ path := importName name path ]> (imports (g_importer g))))
        (mkNamespace ({[ importName name path ]} ∪ reserved g)) g, None)) \/
  (available (importName name path) (g_namespace g) = false /\
   AddImportSpec name path g
   = (g, Some (DuplicateImportError path (importName name path)))).
Proof.
  unfold AddImportSpec, importer_AddImportSpec, namespace_Reserve.
  destruct (available _ _) eqn:Hav; [left | right]; simpl.
  - done.
  - by rewrite withScopes_same.
Qed.

Lemma AddImportSpec_registry_ok name path g :
  registry_ok g -> registry_ok (AddImportSpec name path g).1.
Proof.
  intros Hok.
  destruct (AddImportSpec_cases name path g) as [[Hav ->]|[_ ->]]; [|done].
  simpl. apply available_true in Hav as [_ Hav].
  by apply registry_ok_insert.
Qed.

Lemma AddImportSpec_frame name path g :
  decls (AddImportSpec name path g).1 = decls g /\
  reserved g ⊆ reserved (AddImportSpec name path g).1.
Proof.
  destruct (AddImportSpec_cases name path g) as [[_ ->]|[_ ->]]; simpl.
  - unfold reserved; simpl. set_solver.
  - done.
Qed.

Lemma registry_ok_mono g g' :
  registry_ok g ->
  g_importer g' = g_importer g -> reserved g ⊆ reserved g' ->
  registry_ok g'.
Proof.
  intros [Hres Hinj] Himp Hsub. unfold registry_ok. rewrite Himp.
  split; [|done]. intros p a Ha. apply Hsub. by eapply Hres.
Qed.

Lemma names_ok_mono g g' :
  names_ok g -> decls g' = decls g -> reserved g ⊆ reserved g' ->
  names_ok g'.
Proof.
  intros [Hnd Hres] Hd Hsub. unfold names_ok. rewrite Hd.
  split; [done|]. intros x Hx. apply Hsub. by apply Hres.
Qed.

Lemma importsOnly_names_ok g g' :
  importsOnly g g' -> names_ok g -> names_ok g'.
Proof. intros (Hd & Hr & _) Hok. by eapply names_ok_mono. Qed.

(** ** Rendering *)

Lemma execute_importsOnly e child buff g :
  importsOnly g (execute e child buff g).1.
Proof.
  revert child buff g.
  induction e as [|msg|text k IH|path k IH|base k IH]; intros child buff g;
    simpl.
  - apply importsOnly_refl.
  - apply importsOnly_refl.
  - apply IH.
  - pose proof (Import_importsOnly path g) as Himp.
    destruct (Import path g) as [alias g1]. simpl in Himp.
    eapply importsOnly_trans; [exact Himp | apply IH].
  - destruct (child_NewName base (g_namespace g) child) as [name child'].
    apply IH.
Qed.

Lemma execute_registry_ok e child buff g :
  registry_ok g -> registry_ok (execute e child buff g).1.
Proof.
  revert child buff g.
  induction e as [|msg|text k IH|path k IH|base k IH]; intros child buff g;
    simpl; try done.
  - apply IH.
  - intros Hok. pose proof (Import_registry_ok path g Hok) as Hok1.
    destruct (Import path g) as [alias g1]. by apply IH.
  - destruct (child_NewName base (g_namespace g) child) as [name child'].
    apply IH.
Qed.

(** What [TextTemplate] returns, by cases. *)
Lemma TextTemplate_cases s data g :
  (exists msg, template_Parse s = inl msg /\
     TextTemplate s data g = (g, ("", Some (TemplateError msg)))) \/
  (exists tmpl g' buff, template_Parse s = inr tmpl /\
     execute (template_Execute tmpl data) ∅ "" g = (g', (buff, None)) /\
     TextTemplate s data g = (g', (buff, None))) \/
  (exists tmpl g' buff err, template_Parse s = inr tmpl /\
     execute (template_Execute tmpl data) ∅ "" g = (g', (buff, Some err)) /\
     TextTemplate s data g = (g', ("", Some err))).
Proof.
  unfold TextTemplate. destruct (template_Parse s) as [msg|tmpl].
  - left. eauto.
  - destruct (execute _ _ _ _) as [g' [buff [err|]]] eqn:Hex.
    + right; right. by exists tmpl, g', buff, err.
    + right; left. by exists tmpl, g', buff.
Qed.

Lemma TextTemplate_importsOnly s data g :
  importsOnly g (TextTemplate s data g).1.
Proof.
  destruct (TextTemplate_cases s data g)
    as [(msg & _ & ->)|[(tmpl & g' & buff & _ & Hex & ->)
                       |(tmpl & g' & buff & err & _ & Hex & ->)]]; simpl.
  - apply importsOnly_refl.
  - pose proof (execute_importsOnly (template_Execute tmpl data) ∅ "" g).
    by rewrite Hex in *.
  - pose proof (execute_importsOnly (template_Execute tmpl data) ∅ "" g).
    by rewrite Hex in *.
Qed.

Lemma TextTemplate_registry_ok s data g :
  registry_ok g -> registry_ok (TextTemplate s data g).1.
Proof.
  intros Hok.
  destruct (TextTemplate_cases s data g)
    as [(msg & _ & ->)|[(tmpl & g' & buff & _ & Hex & ->)
                       |(tmpl & g' & buff & err & _ & Hex & ->)]]; simpl.
  - done.
  - pose proof (execute_registry_ok (template_Execute tmpl data) ∅ "" g Hok).
    by rewrite Hex in *.
  - pose proof (execute_registry_ok (template_Execute tmpl data) ∅ "" g Hok).
    by rewrite Hex in *.
Qed.

(** ** Recording the names of a declaration *)

Lemma registers_refl g : registers g g.
Proof. split; [done|]. split; [done | auto]. Qed.

Lemma registers_trans g1 g2 g3 :
  registers g1 g2 -> registers g2 g3 -> registers g1 g3.
Proof.
  intros (Hd1 & Hr1 & Hk1) (Hd2 & Hr2 & Hk2).
  split; [congruence|]. split; [set_solver | auto].
Qed.

Lemma rangeOver_registers {A} (body : A -> Generator -> Generator * outcome)
    l g :
  (forall x g0, registers g0 (body x g0).1) ->
  registers g (rangeOver body l g).1.
Proof.
  intros Hbody. revert g.
  induction l as [|x l IH]; intros g; simpl; [apply registers_refl|].
  pose proof (Hbody x g) as Hx.
  destruct (body x g) as [g1 [| err |]]; simpl in *; [|done..].
  eapply registers_trans; [exact Hx | apply IH].
Qed.

Lemma rangeOver_reservedNew {A}
    (body : A -> Generator -> Generator * outcome)
    (f : A -> list string) l g g' :
  (forall x g0, registers g0 (body x g0).1) ->
  (forall x g0 g1, body x g0 = (g1, Nil) -> reservedNew (f x) g0 g1) ->
  rangeOver body l g = (g', Nil) ->
  reservedNew (concat (f <$> l)) g g'.
Proof.
  intros Hreg Hbody. revert g.
  induction l as [|x l IH]; intros g; simpl.
  - intros [= <-]. split; [constructor|]. split; intros x Hx; inversion Hx.
  - pose proof (Hreg x g) as Hx. pose proof (Hbody x g) as Hnew.
    destruct (body x g) as [g1 [| err |]]; simpl in *; [|done..].
    intros Hrest.
    pose proof (rangeOver_registers body l g1 Hreg) as Hreg'.
    rewrite Hrest in Hreg'. simpl in Hreg'.
    destruct Hx as (_ & Hsub1 & _). destruct Hreg' as (_ & Hsub2 & _).
    destruct (Hnew g1 eq_refl) as (Hnd1 & Hfree1 & Hres1).
    destruct (IH g1 Hrest) as (Hnd2 & Hfree2 & Hres2).
    split; [|split].
    + apply NoDup_app. split; [done|]. split; [|done].
      intros y Hy Hy2. apply (Hfree2 y Hy2). by apply Hres1.
    + intros y [Hy|Hy]%elem_of_app; [by apply Hfree1|].
      intros Hin. apply (Hfree2 y Hy). by apply Hsub1.
    + intros y [Hy|Hy]%elem_of_app; [|by apply Hres2].
      apply Hsub2. by apply Hres1.
Qed.

Lemma concat_singletons {A} (l : list A) :
  concat ((fun x => [x]) <$> l) = l.
Proof. induction l as [|x l IH]; [done|]. csimpl. by rewrite IH. Qed.

Lemma reserveOr_cases wrap name g :
  (available name (g_namespace g) = true /\
   reserveOr wrap name g =
     (withScopes (g_importer g)
        (mkNamespace ({[ name ]} ∪ reserved g)) g, Nil)) \/
  (available name (g_namespace g) = false /\
   reserveOr wrap name g = (g, Failed (wrap name (NameCollisionError name)))).
Proof.
  unfold reserveOr.
  destruct (Reserve_cases name g) as [[Hav ->]|[Hav ->]]; auto.
Qed.

Lemma reserveOr_registers wrap name g :
  registers g (reserveOr wrap name g).1.
Proof.
  destruct (reserveOr_cases wrap name g) as [[_ ->]|[_ ->]]; simpl.
  - split; [done|]. split; [unfold reserved; simpl; set_solver|].
    intros Hok. eapply registry_ok_mono; [exact Hok | done |].
    unfold reserved; simpl; set_solver.
  - apply registers_refl.
Qed.

Lemma reserveOr_reservedNew wrap name g g' :
  reserveOr wrap name g = (g', Nil) -> reservedNew [name] g g'.
Proof.
  destruct (reserveOr_cases wrap name g) as [[Hav ->]|[_ ->]]; [|done].
  intros [= <-]. apply available_true in Hav as [_ Hav].
  split; [apply NoDup_singleton|].
  split; intros x ->%list_elem_of_singleton; [done|].
  unfold reserved; simpl; set_solver.
Qed.

Lemma AddImportSpec_registers name path g :
  registers g (AddImportSpec name path g).1.
Proof.
  destruct (AddImportSpec_frame name path g) as (Hd & Hr).
  split; [done|]. split; [done|]. apply AddImportSpec_registry_ok.
Qed.

Lemma recordImportSpec_registers spec g :
  registers g (recordImportSpec spec g).1.
Proof.
  destruct spec as [name path| |]; simpl; try apply registers_refl.
  pose proof (AddImportSpec_registers name path g) as H.
  by destruct (AddImportSpec name path g) as [g' [err|]].
Qed.

Lemma recordValueSpec_registers wrap spec g :
  registers g (recordValueSpec wrap spec g).1.
Proof.
  destruct spec as [|names rest|]; simpl; try apply registers_refl.
  apply rangeOver_registers. intros. apply reserveOr_registers.
Qed.

Lemma recordTypeSpec_registers spec g :
  registers g (recordTypeSpec spec g).1.
Proof.
  destruct spec as [| |name t]; simpl; try apply registers_refl.
  apply reserveOr_registers.
Qed.

Lemma recordGenDeclNames_registers d g :
  registers g (recordGenDeclNames d g).1.
Proof.
  unfold recordGenDeclNames.
  destruct (Tok d); simpl; try apply registers_refl;
    apply rangeOver_registers; intros.
  - apply recordValueSpec_registers.
  - apply recordImportSpec_registers.
  - apply recordTypeSpec_registers.
  - apply recordValueSpec_registers.
Qed.

Lemma recordDeclNames_registers decl g :
  registers g (recordDeclNames decl g).1.
Proof.
  destruct decl as [|[recv|] name body|d]; simpl;
    try apply registers_refl.
  - apply reserveOr_registers.
  - apply recordGenDeclNames_registers.
Qed.

Lemma recordValueSpec_reservedNew wrap spec g g' :
  recordValueSpec wrap spec g = (g', Nil) ->
  reservedNew (specNames spec) g g'.
Proof.
  destruct spec as [|names rest|]; simpl; try done.
  intros Hloop. rewrite <- (concat_singletons names).
  eapply rangeOver_reservedNew; [| |exact Hloop].
  - intros. apply reserveOr_registers.
  - intros x g0 g1. apply reserveOr_reservedNew.
Qed.

Lemma recordTypeSpec_reservedNew spec g g' :
  recordTypeSpec spec g = (g', Nil) -> reservedNew (specNames spec) g g'.
Proof.
  destruct spec as [| |name t]; simpl; try done.
  apply reserveOr_reservedNew.
Qed.

Lemma reservedNew_nil g g' : reservedNew [] g g'.
Proof. split; [constructor|]. split; intros x Hx; inversion Hx. Qed.

(** A declaration whose names were recorded: its names are distinct, were
    free before and are reserved after. *)
Lemma recordDeclNames_reservedNew decl g g' :
  recordDeclNames decl g = (g', Nil) -> reservedNew (declNames decl) g g'.
Proof.
  destruct decl as [|[recv|] name body|d]; simpl;
    try (intros; apply reservedNew_nil).
  - apply reserveOr_reservedNew.
  - unfold recordGenDeclNames.
    destruct (Tok d); try done; try (intros; apply reservedNew_nil);
      apply rangeOver_reservedNew.
    + intros. apply recordValueSpec_registers.
    + intros x g0 g1. apply recordValueSpec_reservedNew.
    + intros. apply recordTypeSpec_registers.
    + intros x g0 g1. apply recordTypeSpec_reservedNew.
    + intros. apply recordValueSpec_registers.
    + intros x g0 g1. apply recordValueSpec_reservedNew.
Qed.

(** ** The loop over the declarations of a fragment *)

Lemma declared_app ds1 ds2 :
  declared (ds1 ++ ds2) = declared ds1 ++ declared ds2.
Proof. unfold declared. by rewrite fmap_app, concat_app. Qed.

Lemma declared_snoc ds d : declared (ds ++ [d]) = declared ds ++ declNames d.
Proof. rewrite declared_app. unfold declared. simpl. by rewrite app_nil_r. Qed.

Lemma appendDecl_names_ok decl g0 g :
  names_ok g0 -> registers g0 g -> reservedNew (declNames decl) g0 g ->
  names_ok (appendDecl decl g).
Proof.
  intros [Hnd Hres] (Hd & Hsub & _) (Hnd' & Hfree & Hnew).
  unfold names_ok, reserved. simpl. rewrite Hd, declared_snoc. split.
  - apply NoDup_app. split; [done|]. split; [|done].
    intros x Hx Hx'. apply (Hfree x Hx'). by apply Hres.
  - intros x [Hx|Hx]%elem_of_app.
    + apply Hsub. by apply Hres.
    + by apply Hnew.
Qed.

Lemma declare_cases decl g :
  (exists g1, recordDeclNames decl g = (g1, Nil) /\
     declare decl g = (appendDecl decl g1, Nil)) \/
  (exists g1 r, recordDeclNames decl g = (g1, r) /\ r <> Nil /\
     declare decl g = (g1, r)).
Proof.
  unfold declare. destruct (recordDeclNames decl g) as [g1 [|err|]].
  - left. by exists g1.
  - right. by exists g1, (Failed err).
  - right. by exists g1, Panicked.
Qed.

Lemma declare_keeps decl g :
  reserved g ⊆ reserved (declare decl g).1 /\
  (registry_ok g -> registry_ok (declare decl g).1) /\
  (names_ok g -> names_ok (declare decl g).1).
Proof.
  pose proof (recordDeclNames_registers decl g) as Hreg.
  destruct (declare_cases decl g)
    as [(g1 & Hrec & ->)|(g1 & r & Hrec & Hr & ->)];
    rewrite Hrec in Hreg; simpl in *.
  - destruct Hreg as (Hd & Hsub & Hok). split; [done|]. split; [done|].
    intros Hnames. eapply appendDecl_names_ok; [exact Hnames |by split|].
    by apply recordDeclNames_reservedNew.
  - destruct Hreg as (Hd & Hsub & Hok). split; [done|]. split; [done|].
    intros Hnames. by eapply names_ok_mono.
Qed.

Lemma loop_keeps ds g :
  reserved g ⊆ reserved (rangeOver declare ds g).1 /\
  (registry_ok g -> registry_ok (rangeOver declare ds g).1) /\
  (names_ok g -> names_ok (rangeOver declare ds g).1).
Proof.
  revert g. induction ds as [|d ds IH]; intros g; simpl; [done|].
  pose proof (declare_keeps d g) as (Hsub & Hok & Hnames).
  destruct (declare d g) as [g1 [|err|]]; simpl in *; [|done..].
  destruct (IH g1) as (Hsub' & Hok' & Hnames').
  split; [by etrans|]. split; auto.
Qed.

(** The loop over the declarations of a fragment: all are appended in
    order when it ends normally; otherwise those before the declaration
    whose names could not be recorded are, and nothing after them. *)
Lemma loop_decls ds g g' r :
  rangeOver declare ds g = (g', r) ->
  match r with
  | Nil => decls g' = decls g ++ ds
  | _ =>
      exists pre d post g2,
        ds = pre ++ d :: post /\
        rangeOver declare pre g = (g2, Nil) /\
        recordDeclNames d g2 = (g', r) /\
        decls g' = decls g ++ pre
  end.
Proof.
  revert g. induction ds as [|d ds IH]; intros g; simpl.
  - intros [= <- <-]. by rewrite app_nil_r.
  - pose proof (recordDeclNames_registers d g) as Hreg.
    destruct (declare_cases d g)
      as [(g1 & Hrec & ->)|(g1 & r1 & Hrec & Hr & ->)];
      rewrite Hrec in Hreg; destruct Hreg as (Hd & _); simpl in Hd.
    + intros Hloop. specialize (IH _ Hloop).
      assert (forall ds', decls (appendDecl d g1) ++ ds'
                          = decls g ++ d :: ds') as Happ.
      { intros ds'. simpl. rewrite Hd, <- app_assoc. done. }
      destruct r as [|err|].
      * by rewrite <- Happ.
      * destruct IH as (pre & d' & post & g2 & -> & Hpre & Hd' & Hdecls).
        exists (d :: pre), d', post, g2. simpl.
        unfold declare at 1. rewrite Hrec. rewrite Hpre.
        by rewrite <- Happ.
      * destruct IH as (pre & d' & post & g2 & -> & Hpre & Hd' & Hdecls).
        exists (d :: pre), d', post, g2. simpl.
        unfold declare at 1. rewrite Hrec. rewrite Hpre.
        by rewrite <- Happ.
    + destruct r1 as [|err1|]; [done| |]; intros [= <- <-];
        exists [], d, ds, g; by rewrite app_nil_r.
Qed.

Lemma fragment_cases s data g :
  match fragment s data g with
  | Some (g1, ds) =>
      exists out f,
        TextTemplate s data g = (g1, (out, None)) /\
        renderTemplate s data g = (g1, (Some (header +:+ out), None)) /\
        parser_ParseFile (header +:+ out) = inr f /\ ds = Decls f /\
        DeclareFromTemplate s data g = rangeOver declare ds g1
  | None =>
      (exists g1 err,
         TextTemplate s data g = (g1, ("", Some err)) /\
         DeclareFromTemplate s data g = (g1, Failed err)) \/
      (exists g1 out diag,
         TextTemplate s data g = (g1, (out, None)) /\
         parser_ParseFile (header +:+ out) = inl diag /\
         DeclareFromTemplate s data g
           = (g1, Failed (CouldNotParse diag (header +:+ out))))
  end.
Proof.
  unfold fragment, DeclareFromTemplate, renderTemplate.
  destruct (TextTemplate_cases s data g)
    as [(msg & _ & ->)|[(tmpl & g' & buff & _ & _ & ->)
                       |(tmpl & g' & buff & err & _ & _ & ->)]]; simpl.
  - left. eauto.
  - destruct (parser_ParseFile (header +:+ buff)) as [diag|f] eqn:Hparse.
    + right. by exists g', buff, diag.
    + by exists buff, f.
  - left. eauto.
Qed.

Lemma DeclareFromTemplate_keeps s data g :
  reserved g ⊆ reserved (DeclareFromTemplate s data g).1 /\
  (registry_ok g -> registry_ok (DeclareFromTemplate s data g).1) /\
  (names_ok g -> names_ok (DeclareFromTemplate s data g).1).
Proof.
  pose proof (TextTemplate_importsOnly s data g) as Himp.
  pose proof (TextTemplate_registry_ok s data g) as Hok.
  pose proof (fragment_cases s data g) as Hfrag.
  destruct (fragment s data g) as [[g1 ds]|].
  - destruct Hfrag as (out & f & Htext & _ & _ & _ & ->).
    rewrite Htext in *. simpl in *.
    destruct (loop_keeps ds g1) as (Hsub & Hok' & Hnames).
    destruct Himp as (Hd & Hr & Hrest).
    split; [by etrans|]. split; [auto|].
    intros Hn. apply Hnames. by eapply names_ok_mono.
  - destruct Hfrag as [(g1 & err & Htext & ->)
                      |(g1 & out & diag & Htext & _ & ->)];
      rewrite Htext in *; simpl in *;
      destruct Himp as (Hd & Hr & Hrest);
      (split; [done|]; split; [done|]);
      intros Hn; by eapply names_ok_mono.
Qed.

Lemma reachable_ok g : reachable g -> registry_ok g /\ names_ok g.
Proof.
  induction 1 as [|s data g _ [Hreg Hnames]|s data g _ [Hreg Hnames]
                  |path g _ [Hreg Hnames]|name g _ [Hreg Hnames]
                  |name path g _ [Hreg Hnames]].
  - split.
    + split; [intros p a Ha|intros p q a Ha]; simpl in Ha;
        by rewrite lookup_empty in Ha.
    + split; [constructor|]. intros x Hx. inversion Hx.
  - destruct (DeclareFromTemplate_keeps s data g) as (_ & ? & ?). auto.
  - split; [by apply TextTemplate_registry_ok|].
    eapply importsOnly_names_ok; [apply TextTemplate_importsOnly|done].
  - split; [by apply Import_registry_ok|].
    eapply importsOnly_names_ok; [apply Import_importsOnly|done].
  - destruct (reserveOr_registers (fun _ e => e) name g) as (Hd & Hr & Hk).
    assert ((reserveOr (fun _ e => e) name g).1 = (Reserve name g).1) as Heq.
    { unfold reserveOr. by destruct (Reserve name g) as [? [?|]]. }
    rewrite Heq in *. split; [auto|]. by eapply names_ok_mono.
  - split; [by apply AddImportSpec_registry_ok|].
    destruct (AddImportSpec_frame name path g) as (Hd & Hr).
    by eapply names_ok_mono.
Qed.

(** ** Loops, by outcome *)

Lemma rangeOver_outcome {A} (P : outcome -> Prop)
    (body : A -> Generator -> Generator * outcome) l g :
  P Nil -> (forall x g0, P (body x g0).2) -> P (rangeOver body l g).2.
Proof.
  intros Hnil Hbody. revert g. induction l as [|x l IH]; intros g; simpl.
  - done.
  - pose proof (Hbody x g) as Hx.
    destruct (body x g) as [g1 [|err|]]; simpl in *; auto.
Qed.

(** Splitting a loop that ended normally at one of its iterations. *)
Lemma rangeOver_app_Nil {A} (body : A -> Generator -> Generator * outcome)
    pre x post g g' :
  rangeOver body (pre ++ x :: post) g = (g', Nil) ->
  exists g2 g3,
    rangeOver body pre g = (g2, Nil) /\ body x g2 = (g3, Nil) /\
    rangeOver body post g3 = (g', Nil).
Proof.
  revert g. induction pre as [|y pre IH]; intros g; simpl.
  - destruct (body x g) as [g3 [|err|]] eqn:Hx; try done.
    intros Hpost. by exists g, g3.
  - destruct (body y g) as [g1 [|err|]]; try done. apply IH.
Qed.

(** A loop whose iteration [x] is the first to end abnormally. *)
Lemma rangeOver_app_stop {A} (body : A -> Generator -> Generator * outcome)
    pre x post g g2 g3 r :
  rangeOver body pre g = (g2, Nil) -> body x g2 = (g3, r) -> r <> Nil ->
  rangeOver body (pre ++ x :: post) g = (g3, r).
Proof.
  revert g. induction pre as [|y pre IH]; intros g; simpl.
  - intros [= <-] Hx Hr. rewrite Hx. by destruct r.
  - destruct (body y g) as [g1 [|err|]]; try done. apply IH.
Qed.

Lemma methods_declared ds g :
  Forall (fun d => isMethod d = true) ds ->
  exists g',
    rangeOver declare ds g = (g', Nil) /\
    decls g' = decls g ++ ds /\ reserved g' = reserved g /\
    g_importer g' = g_importer g.
Proof.
  intros Hall. revert g.
  induction Hall as [|d ds Hd _ IH]; intros g; simpl.
  - exists g. by rewrite app_nil_r.
  - destruct d as [|[recv|] name body|d]; try done. simpl.
    destruct (IH (appendDecl (FuncDecl (Some recv) name body) g))
      as (g' & -> & Hdecls & Hres & Himp).
    exists g'. split; [done|]. simpl in Hdecls.
    by rewrite Hdecls, <- app_assoc.
Qed.

Lemma recordImportSpecs_added specs g g' :
  rangeOver recordImportSpec specs g = (g', Nil) -> addedInOrder specs g g'.
Proof.
  revert g. induction specs as [|spec specs IH]; intros g; simpl.
  - intros [= <-]. constructor.
  - destruct spec as [name path| |]; simpl; try done.
    destruct (AddImportSpec name path g) as [g1 [err|]] eqn:Hadd; [done|].
    intros Hrest. econstructor; [exact Hadd | by apply IH].
Qed.

Lemma added_recordImportSpecs specs g g' :
  addedInOrder specs g g' -> rangeOver recordImportSpec specs g = (g', Nil).
Proof.
  induction 1 as [|name path rest g g1 g' Hadd _ IH]; simpl; [done|].
  by rewrite Hadd.
Qed.

Lemma count_declaring_free name ds :
  name ∉ declared ds ->
  filter (fun d => name ∈ declNames d) ds = [].
Proof.
  induction ds as [|d ds IH]; [done|].
  change (declared (d :: ds)) with (declNames d ++ declared ds).
  rewrite not_elem_of_app. intros [Hd Hds].
  rewrite filter_cons_False; auto.
Qed.

(** The first name of a declaration is taken: recording stops before any
    name is reserved. *)
Lemma first_name_taken decl name names g :
  declNames decl = name :: names ->
  available name (g_namespace g) = false ->
  (recordDeclNames decl g).1 = g /\ (recordDeclNames decl g).2 <> Nil.
Proof.
  intros Hnames Hav.
  assert (forall wrap, reserveOr wrap name g
            = (g, Failed (wrap name (NameCollisionError name)))) as Hres.
  { intros wrap. destruct (reserveOr_cases wrap name g) as [[Ht _]|[_ ->]];
      [congruence | done]. }
  assert (forall wrap specs,
             concat (specNames <$> specs) = name :: names ->
             (rangeOver (recordValueSpec wrap) specs g).1 = g /\
             (rangeOver (recordValueSpec wrap) specs g).2 <> Nil) as Hvalue.
  { intros wrap specs. induction specs as [|spec specs IH]; [done|].
    destruct spec as [|[|x xs] rest|]; simpl; try done.
    intros [= -> _]. by rewrite Hres. }
  destruct decl as [|[recv|] fname body|d]; simpl in *; try done.
  - injection Hnames as -> _. by rewrite Hres.
  - unfold recordGenDeclNames. destruct (Tok d); try done; try by apply Hvalue.
    revert Hnames. generalize (Specs d). intros specs.
    induction specs as [|spec specs IH]; [done|].
    destruct spec as [| |x t]; simpl; try done.
    intros [= -> _]. by rewrite Hres.
Qed.

Lemma Import_twice path g :
  Import path (Import path g).2 = ((Import path g).1, (Import path g).2).
Proof. apply Import_known, Import_registered. Qed.

Lemma loop_reserves ds g g' :
  rangeOver declare ds g = (g', Nil) ->
  forall x, x ∈ declared ds -> x ∈ reserved g'.
Proof.
  revert g. induction ds as [|d ds IH]; intros g; simpl.
  - intros _ x Hx. inversion Hx.
  - destruct (declare_cases d g)
      as [(g1 & Hrec & ->)|(g1 & r & Hrec & Hr & ->)];
      [|by destruct r].
    intros Hloop x.
    change (declared (d :: ds)) with (declNames d ++ declared ds).
    intros [Hx|Hx]%elem_of_app; [|by eapply IH].
    destruct (loop_keeps ds (appendDecl d g1)) as (Hsub & _).
    rewrite Hloop in Hsub. apply Hsub.
    apply recordDeclNames_reservedNew in Hrec as (_ & _ & Hnew).
    by apply Hnew.
Qed.

Lemma importDecl_None g :
  importDecl g = None <-> imports (g_importer g) = ∅.
Proof.
  unfold importDecl, importer_importDecl.
  rewrite <- map_to_list_empty_iff.
  by destruct (map_to_list (imports (g_importer g))).
Qed.

(** ** Reserving the names of a declaration, name by name *)

Lemma rangeOver_app {A} (body : A -> Generator -> Generator * outcome)
    l1 l2 g :
  rangeOver body (l1 ++ l2) g
  = match rangeOver body l1 g with
    | (g', Nil) => rangeOver body l2 g'
    | stop => stop
    end.
Proof.
  revert g. induction l1 as [|x l1 IH]; intros g; simpl; [done|].
  destruct (body x g) as [g1 [|err|]]; [apply IH | done | done].
Qed.

Lemma union_cons_set (n : string) (names rest : gset string) :
  names ∪ ({[ n ]} ∪ rest) = {[ n ]} ∪ names ∪ rest.
Proof. apply set_eq. intros x. rewrite !elem_of_union. tauto. Qed.

Lemma union_nil_set (rest : gset string) :
  rest = list_to_set [] ∪ rest.
Proof. apply set_eq. intros x. rewrite elem_of_union. set_unfold. tauto. Qed.

Lemma available_reserved name g g' :
  reserved g' = reserved g ->
  available name (g_namespace g') = available name (g_namespace g).
Proof. unfold available, reserved. by intros ->. Qed.

Lemma available_after name (names : gset string) g g' :
  reserved g' = names ∪ reserved g ->
  available name (g_namespace g') = true
  <-> (available name (g_namespace g) = true /\ name ∉ names).
Proof.
  unfold reserved. intros Heq. rewrite !available_true, Heq.
  rewrite not_elem_of_union. tauto.
Qed.

(** The loop that reserves a list of names, by outcome: it never panics;
    it ends normally exactly on distinct available names; it stops at the
    first name that is taken, a keyword, or a repetition. *)
Lemma names_loop wrap names g :
  match rangeOver (reserveOr wrap) names g with
  | (g', Nil) =>
      NoDup names /\
      (forall x, x ∈ names -> available x (g_namespace g) = true) /\
      reserved g' = list_to_set names ∪ reserved g /\
      decls g' = decls g /\ g_importer g' = g_importer g
  | (g', Failed err) =>
      exists pre name post,
        names = pre ++ name :: post /\
        err = wrap name (NameCollisionError name) /\
        NoDup pre /\
        (forall x, x ∈ pre -> available x (g_namespace g) = true) /\
        (name ∈ pre \/ available name (g_namespace g) = false) /\
        available name (g_namespace g') = false /\
        reserved g' = list_to_set pre ∪ reserved g /\
        decls g' = decls g /\ g_importer g' = g_importer g
  | (_, Panicked) => False
  end.
Proof.
  revert g. induction names as [|n names IH]; intros g; simpl.
  - split; [constructor|]. split; [intros x Hx; inversion Hx|].
    split; [|done]. apply union_nil_set.
  - destruct (reserveOr_cases wrap n g) as [[Hav ->]|[Hav ->]].
    + set (g1 := withScopes (g_importer g)
                   (mkNamespace ({[ n ]} ∪ reserved g)) g).
      assert (reserved g1 = {[ n ]} ∪ reserved g) as Hres by done.
      specialize (IH g1).
      destruct (rangeOver (reserveOr wrap) names g1) as [g' [|err|]];
        [| |done].
      * destruct IH as (Hnd & Hfree & Hres' & Hd & Hi).
        split.
        { apply NoDup_cons. split; [|done]. intros Hin.
          apply Hfree in Hin.
          apply (available_after n {[ n ]} g g1 Hres) in Hin as [_ Hin].
          apply Hin. by apply elem_of_singleton. }
        split.
        { intros x [->|Hx]%elem_of_cons; [done|].
          apply Hfree in Hx.
          by apply (available_after x {[ n ]} g g1 Hres) in Hx as [Hx _]. }
        split; [|done]. rewrite Hres', Hres. simpl.
        apply union_cons_set.
      * destruct IH as (pre & name & post & -> & -> & Hnd & Hfree & Hwhy
                        & Hav' & Hres' & Hd & Hi).
        exists (n :: pre), name, post. split; [done|]. split; [done|].
        split.
        { apply NoDup_cons. split; [|done]. intros Hin.
          apply Hfree in Hin.
          apply (available_after n {[ n ]} g g1 Hres) in Hin as [_ Hin].
          apply Hin. by apply elem_of_singleton. }
        split.
        { intros x [->|Hx]%elem_of_cons; [done|].
          apply Hfree in Hx.
          by apply (available_after x {[ n ]} g g1 Hres) in Hx as [Hx _]. }
        split.
        { destruct Hwhy as [Hin|Hno]; [left; by apply elem_of_cons; right|].
          destruct (decide (name = n)) as [->|Hne].
          - left. apply elem_of_cons. by left.
          - right. destruct (available name (g_namespace g)) eqn:Ha; [|done].
            assert (available name (g_namespace g1) = true) as Ht.
            { apply (available_after name {[ n ]} g g1 Hres).
              split; [done|]. by intros ?%elem_of_singleton. }
            congruence. }
        split; [done|]. split; [|done].
        rewrite Hres', Hres. simpl. apply union_cons_set.
    + exists [], n, names. split; [done|]. split; [done|].
      split; [constructor|]. split; [intros x Hx; inversion Hx|].
      split; [by right|]. split; [done|]. split; [|done].
      apply union_nil_set.
Qed.

Lemma concat_specNames_cons spec specs :
  concat (specNames <$> spec :: specs)
  = specNames spec ++ concat (specNames <$> specs).
Proof. done. Qed.

Lemma valueSpecs_flat wrap tok specs g :
  tok = CONST \/ tok = VAR ->
  forallb (specMatches tok) specs = true ->
  rangeOver (recordValueSpec wrap) specs g
  = rangeOver (reserveOr wrap) (concat (specNames <$> specs)) g.
Proof.
  intros Htok. revert g.
  induction specs as [|spec specs IH]; intros g; [done|].
  intros [Hspec Hrest]%andb_true_iff.
  rewrite concat_specNames_cons, rangeOver_app.
  destruct spec as [|names rest|];
    try (destruct Htok as [-> | ->]; simpl in Hspec; discriminate).
  simpl. destruct (rangeOver (reserveOr wrap) names g) as [g1 [|err|]];
    [by apply IH | done | done].
Qed.

Lemma typeSpecs_flat specs g :
  forallb (specMatches TYPE) specs = true ->
  rangeOver recordTypeSpec specs g
  = rangeOver (reserveOr CouldNotDeclareType)
      (concat (specNames <$> specs)) g.
Proof.
  revert g. induction specs as [|spec specs IH]; intros g; [done|].
  intros [Hspec Hrest]%andb_true_iff.
  destruct spec as [| |name t]; try discriminate.
  simpl. destruct (reserveOr CouldNotDeclareType name g) as [g1 [|err|]];
    [by apply IH | done | done].
Qed.

(** Recording the names of such a declaration is one loop over the names
    it introduces, left to right. *)
Lemma recordDeclNames_flat decl g :
  namesOnly decl = true ->
  recordDeclNames decl g
  = rangeOver (reserveOr (wrapOf decl)) (declNames decl) g.
Proof.
  destruct decl as [|[recv|] name body|d]; simpl; try done.
  - intros _. by destruct (reserveOr _ name g) as [g1 [|err|]].
  - unfold recordGenDeclNames. destruct (Tok d) eqn:Htok; try done; intros H.
    + apply (valueSpecs_flat _ CONST); auto.
    + by apply typeSpecs_flat.
    + apply (valueSpecs_flat _ VAR); auto.
Qed.

(** A declaration built as the parser builds them that fails with a name
    collision is a function, constant, type or variable declaration. *)
Lemma collision_namesOnly decl g g' err :
  specsMatch decl = true ->
  recordDeclNames decl g = (g', Failed err) ->
  isNameCollision err = true ->
  namesOnly decl = true.
Proof.
  destruct decl as [|[recv|] name body|d]; simpl; try done.
  intros Hspecs. unfold recordGenDeclNames.
  destruct (Tok d) eqn:Htok; try done; try (by intros [= <- <-]).
  intros Hrec Herr. exfalso.
  pose proof (rangeOver_outcome
                (fun r => forall e, r = Failed e -> isNameCollision e = false)
                recordImportSpec (Specs d) g) as Hout.
  rewrite Hrec in Hout. simpl in Hout.
  rewrite (Hout ltac:(done)) in Herr; [done| |done].
  intros [name path| |] g0; simpl; try done.
  destruct (AddImportSpec name path g0) as [g1 [e0|]]; simpl; [|done].
  by intros e [= <-].
Qed.

(** A failing declaration of that kind leaves the reserved names alone
    exactly when its first name is the one that cannot be reserved. *)
Lemma failure_keeps_reserved decl g g' err :
  namesOnly decl = true ->
  recordDeclNames decl g = (g', Failed err) ->
  reserved g' = reserved g
  <-> exists name names,
        declNames decl = name :: names /\
        available name (g_namespace g) = false.
Proof.
  intros Hplain Hrec. split.
  - intros Hsame.
    rewrite (recordDeclNames_flat decl g Hplain) in Hrec.
    pose proof (names_loop (wrapOf decl) (declNames decl) g) as Hloop.
    rewrite Hrec in Hloop.
    destruct Hloop as (pre & name & post & Hnames & _ & _ & Hfree & Hwhy
                       & _ & Hres & _).
    destruct pre as [|x pre].
    + exists name, post. split; [done|].
      destruct Hwhy as [Hin|Hno]; [by inversion Hin | done].
    + exfalso.
      assert (available x (g_namespace g) = true) as Hx.
      { apply Hfree. apply elem_of_cons. by left. }
      apply available_true in Hx as [_ Hx]. apply Hx.
      change (x ∈ reserved g). rewrite <- Hsame, Hres.
      apply elem_of_union. left. apply elem_of_list_to_set.
      apply elem_of_cons. by left.
  - intros (name & names & Hnames & Hav).
    destruct (first_name_taken decl name names g Hnames Hav) as [Hsame _].
    rewrite Hrec in Hsame. simpl in Hsame. by rewrite Hsame.
Qed.

(** ** The claims *)

(** C1, amended.  A call of [DeclareFromTemplate] that fails while
    registering a declaration of the rendered fragment fails as a whole but
    rolls nothing back: the declarations of the fragment before the failing
    one stay appended, in order, and their names stay reserved; no name
    reserved before the call is lost and nothing else is appended.  When
    the failure is a name collision, on a declaration with specs as the
    parser builds them, the accepted declarations and the reserved names
    are exactly as rendering left them if and only if the failing
    declaration is the first of the fragment and the first name it
    introduces is the one that cannot be reserved. *)
Theorem collision_keeps_earlier_declarations s data g g1 ds g' err :
  fragment s data g = Some (g1, ds) ->
  DeclareFromTemplate s data g = (g', Failed err) ->
  exists pre d post g2,
    ds = pre ++ d :: post /\
    rangeOver declare pre g1 = (g2, Nil) /\
    recordDeclNames d g2 = (g', Failed err) /\
    decls g' = decls g ++ pre /\
    reserved g ⊆ reserved g' /\
    (forall x, x ∈ declared pre -> x ∈ reserved g') /\
    (pre = [] -> forall name names,
        declNames d = name :: names ->
        available name (g_namespace g1) = false -> g' = g1) /\
    (specsMatch d = true -> isNameCollision err = true ->
     (decls g' = decls g1 /\ reserved g' = reserved g1)
     <-> (pre = [] /\
          exists name names,
            declNames d = name :: names /\
            available name (g_namespace g1) = false)).
Proof.
  intros Hfrag Hcall.
  pose proof (fragment_cases s data g) as Hc. rewrite Hfrag in Hc.
  destruct Hc as (out & f & Htext & _ & _ & _ & Hdft).
  pose proof (TextTemplate_importsOnly s data g) as (Hd & Hsub & _).
  rewrite Htext in Hd, Hsub. simpl in Hd, Hsub.
  rewrite Hdft in Hcall. pose proof (loop_decls _ _ _ _ Hcall) as Hsplit.
  destruct Hsplit as (pre & d & post & g2 & -> & Hpre & Hrec & Hdecls).
  exists pre, d, post, g2.
  pose proof (recordDeclNames_registers d g2) as (_ & Hsub2 & _).
  rewrite Hrec in Hsub2. simpl in Hsub2.
  destruct (loop_keeps pre g1) as (Hsub1 & _).
  rewrite Hpre in Hsub1. simpl in Hsub1.
  split; [done|]. split; [done|]. split; [done|].
  split; [by rewrite Hdecls, Hd|].
  split; [by do 2 (etrans; [eassumption|])|].
  split; [intros x Hx; apply Hsub2; by eapply loop_reserves|].
  split.
  - intros -> name names Hnames Hav. simpl in Hpre. injection Hpre as <-.
    destruct (first_name_taken d name names g1 Hnames Hav) as [Hsame _].
    by rewrite Hrec in Hsame.
  - intros Hspecs Herr.
    pose proof (collision_namesOnly d g2 g' err Hspecs Hrec Herr) as Hplain.
    split.
    + intros [Hsamed Hsamer].
      assert (pre = []) as ->.
      { rewrite Hdecls in Hsamed.
        apply (f_equal length) in Hsamed. rewrite length_app in Hsamed.
        destruct pre; [done | simpl in Hsamed; lia]. }
      split; [done|]. simpl in Hpre. injection Hpre as <-.
      by apply (failure_keeps_reserved d g1 g' err Hplain Hrec).
    + intros [-> Hfirst]. simpl in Hpre. injection Hpre as <-.
      split; [by rewrite Hdecls, app_nil_r|].
      by apply (failure_keeps_reserved d g1 g' err Hplain Hrec).
Qed.

(** C2, amended.  When rendering fails, [TextTemplate] returns the empty
    string together with the error, [DeclareFromTemplate] returns that
    error and appends no declaration; the only names reserved by the call
    are the aliases of the module paths that [import] registered before
    the failure, and a template that does not parse leaves the generator
    unchanged. *)
Theorem render_failure_appends_nothing s data g g1 out err :
  TextTemplate s data g = (g1, (out, Some err)) ->
  out = "" /\
  DeclareFromTemplate s data g = (g1, Failed err) /\
  importsOnly g g1 /\
  (forall msg, template_Parse s = inl msg -> g1 = g).
Proof.
  intros Htext.
  pose proof (TextTemplate_importsOnly s data g) as Himp.
  rewrite Htext in Himp. simpl in Himp.
  destruct (TextTemplate_cases s data g)
    as [(msg & Hparse & Heq)|[(tmpl & g' & buff & Hparse & _ & Heq)
                       |(tmpl & g' & buff & err' & Hparse & _ & Heq)]];
    rewrite Heq in Htext; try done; injection Htext as <- <- <-.
  - split; [done|]. split; [|done].
    unfold DeclareFromTemplate, renderTemplate. by rewrite Heq.
  - split; [done|]. split; [|split; [done|]].
    + unfold DeclareFromTemplate, renderTemplate. by rewrite Heq.
    + intros msg Hmsg. congruence.
Qed.

(** C3.  After any sequence of [DeclareFromTemplate] calls that all return
    [nil], the accepted declarations are those of the fragments in call
    order, after the ones accepted before; the file [Write] hands to the
    formatter lists exactly these, in that order, preceded only by the
    import block, which is absent exactly when nothing is imported. *)
Theorem Write_keeps_acceptance_order calls g g' ds :
  acceptAll calls g = Some (g', ds) ->
  decls g' = decls g ++ ds /\
  Write g' = format_Node (writtenFile g') /\
  Decls (writtenFile g')
  = match importDecl g' with
    | Some block => block :: decls g ++ ds
    | None => decls g ++ ds
    end /\
  (importDecl g' = None <-> imports (g_importer g') = ∅).
Proof.
  intros Hall.
  assert (decls g' = decls g ++ ds) as Hdecls.
  { revert g g' ds Hall.
    induction calls as [|[s data] calls IH]; intros g g' ds; simpl.
    - intros [= <- <-]. by rewrite app_nil_r.
    - pose proof (fragment_cases s data g) as Hfrag.
      destruct (fragment s data g) as [[g1 ds1]|]; [|done].
      destruct Hfrag as (out & f & Htext & _ & _ & _ & Hcall).
      destruct (DeclareFromTemplate s data g) as [g2 [|err|]] eqn:Hdft;
        try done.
      destruct (acceptAll calls g2) as [[gf dss]|] eqn:Hrest; [|done].
      intros [= <- <-]. rewrite (IH _ _ _ Hrest).
      symmetry in Hcall. apply loop_decls in Hcall.
      pose proof (TextTemplate_importsOnly s data g) as (Hd & _).
      rewrite Htext in Hd. simpl in Hd.
      by rewrite Hcall, Hd, <- app_assoc. }
  split; [done|]. split; [done|]. split; [|apply importDecl_None].
  unfold writtenFile. simpl. rewrite Hdecls.
  by destruct (importDecl g').
Qed.

(** C4, amended.  When the rendered text does not parse,
    [DeclareFromTemplate] returns an error whose message embeds the parser
    diagnostic and the offending text, and appends no declaration; the only
    names reserved by the call are the aliases of the module paths that
    [import] registered while rendering. *)
Theorem parse_failure_appends_nothing s data g g1 out diag :
  TextTemplate s data g = (g1, (out, None)) ->
  parser_ParseFile (header +:+ out) = inl diag ->
  DeclareFromTemplate s data g
  = (g1, Failed (CouldNotParse diag (header +:+ out))) /\
  Error (CouldNotParse diag (header +:+ out))
  = "could not parse generated code: " +:+ diag +:+ ":" +:+ newline
      +:+ header +:+ out /\
  importsOnly g g1.
Proof.
  intros Htext Hparse.
  pose proof (TextTemplate_importsOnly s data g) as Himp.
  rewrite Htext in Himp. simpl in Himp.
  split; [|done].
  unfold DeclareFromTemplate, renderTemplate. rewrite Htext. simpl.
  by rewrite Hparse.
Qed.

(** C5.  A declaration is appended only after its top-level names, free
    until then, have been reserved in the root scope; hence in every
    generator the exported operations can build, the accepted declarations
    introduce pairwise distinct names, all reserved.  Of two fragments each
    defining the same type name, free at first, the first call returns
    [nil], the second fails with a name collision on that name, and the
    unit holds exactly one declaration of the name. *)
Theorem accepted_names_are_unique :
  (forall decl g g',
      declare decl g = (g', Nil) ->
      exists g1,
        recordDeclNames decl g = (g1, Nil) /\
        reservedNew (declNames decl) g g1 /\
        g' = appendDecl decl g1) /\
  (forall g, reachable g ->
      NoDup (declared (decls g)) /\
      (forall x, x ∈ declared (decls g) -> x ∈ reserved g)) /\
  (forall s1 data1 s2 data2 g g1 g3 name type1 type2,
      reachable g ->
      fragment s1 data1 g
      = Some (g1, [GenDecl (mkGenDecl TYPE [TypeSpec name type1])]) ->
      available name (g_namespace g1) = true ->
      fragment s2 data2 (DeclareFromTemplate s1 data1 g).1
      = Some (g3, [GenDecl (mkGenDecl TYPE [TypeSpec name type2])]) ->
      (DeclareFromTemplate s1 data1 g).2 = Nil /\
      DeclareFromTemplate s2 data2 (DeclareFromTemplate s1 data1 g).1
      = (g3, Failed (CouldNotDeclareType name (NameCollisionError name))) /\
      decls g3
      = decls g ++ [GenDecl (mkGenDecl TYPE [TypeSpec name type1])] /\
      length (filter (fun d => name ∈ declNames d) (decls g3)) = 1).
Proof.
  split; [|split].
  - intros decl g g' Hdecl.
    destruct (declare_cases decl g)
      as [(g1 & Hrec & Heq)|(g1 & r & Hrec & Hr & Heq)];
      rewrite Heq in Hdecl.
    + injection Hdecl as <-. exists g1. split; [done|]. split; [|done].
      by apply recordDeclNames_reservedNew.
    + injection Hdecl as _ ->. done.
  - intros g Hreach. by apply reachable_ok in Hreach as [_ Hnames].
  - intros s1 data1 s2 data2 g g1 g3 name type1 type2 Hreach Hf1 Hav Hf2.
    set (d1 := GenDecl (mkGenDecl TYPE [TypeSpec name type1])) in *.
    pose proof (fragment_cases s1 data1 g) as Hc1. rewrite Hf1 in Hc1.
    destruct Hc1 as (out1 & f1 & Htext1 & _ & _ & _ & Hcall1).
    pose proof (TextTemplate_importsOnly s1 data1 g) as (Hd1 & Hsub1 & _).
    rewrite Htext1 in Hd1, Hsub1. simpl in Hd1, Hsub1.
    assert (DeclareFromTemplate s1 data1 g
            = (appendDecl d1
                 (withScopes (g_importer g1)
                    (mkNamespace ({[ name ]} ∪ reserved g1)) g1), Nil))
      as Hfirst.
    { rewrite Hcall1. simpl. unfold declare. simpl.
      unfold recordGenDeclNames. simpl.
      destruct (reserveOr_cases CouldNotDeclareType name g1)
        as [[_ ->]|[Hf _]]; [done | congruence]. }
    remember (appendDecl d1
                (withScopes (g_importer g1)
                   (mkNamespace ({[ name ]} ∪ reserved g1)) g1))
      as g2 eqn:Hg2.
    rewrite Hfirst in Hf2 |- *. simpl in Hf2. simpl.
    pose proof (fragment_cases s2 data2 g2) as Hc2. rewrite Hf2 in Hc2.
    destruct Hc2 as (out2 & f2 & Htext2 & _ & _ & _ & Hcall2).
    pose proof (TextTemplate_importsOnly s2 data2 g2) as (Hd2 & Hsub2 & _).
    rewrite Htext2 in Hd2, Hsub2. simpl in Hd2, Hsub2.
    assert (available name (g_namespace g3) = false) as Hav3.
    { destruct (available name (g_namespace g3)) eqn:Ht; [|done].
      apply available_true in Ht as [_ Ht]. exfalso. apply Ht.
      apply Hsub2. rewrite Hg2. unfold reserved. simpl. set_solver. }
    assert (DeclareFromTemplate s2 data2 g2
            = (g3, Failed (CouldNotDeclareType name
                             (NameCollisionError name)))) as Hsecond.
    { rewrite Hcall2. simpl. unfold declare. simpl.
      unfold recordGenDeclNames. simpl.
      destruct (reserveOr_cases CouldNotDeclareType name g3)
        as [[Ht _]|[_ ->]]; [congruence | done]. }
    split; [done|]. split; [done|].
    assert (decls g3 = decls g ++ [d1]) as Hdecls.
    { rewrite Hd2, Hg2. simpl. by rewrite Hd1. }
    split; [done|]. rewrite Hdecls, filter_app.
    apply reachable_ok in Hreach as [_ [_ Hres]].
    rewrite count_declaring_free.
    + rewrite filter_cons_True; [done|]. simpl. set_solver.
    + intros Hin. apply available_true in Hav as [_ Hav].
      apply Hav. apply Hsub1. by apply Hres.
Qed.

(** C6.  For an import declaration of an accepted fragment,
    [AddImportSpec] has been called once per import spec, in order, each
    call succeeding.  When the call for one spec fails, after the
    declarations and specs before it were recorded, the whole
    [DeclareFromTemplate] call fails with an error that wraps the error of
    that spec and whose message names the spec. *)
Theorem explicit_imports_reconciled :
  (forall s data g g1 g' pre specs post,
      fragment s data g
      = Some (g1, pre ++ GenDecl (mkGenDecl IMPORT specs) :: post) ->
      DeclareFromTemplate s data g = (g', Nil) ->
      exists g2 g3,
        rangeOver declare pre g1 = (g2, Nil) /\
        addedInOrder specs g2 g3 /\
        rangeOver declare post
          (appendDecl (GenDecl (mkGenDecl IMPORT specs)) g3) = (g', Nil)) /\
  (forall s data g g1 g2 g3 g4 pre specs1 name path specs2 post err,
      fragment s data g
      = Some (g1, pre ++ GenDecl (mkGenDecl IMPORT
                           (specs1 ++ ImportSpec name path :: specs2))
                    :: post) ->
      rangeOver declare pre g1 = (g2, Nil) ->
      addedInOrder specs1 g2 g3 ->
      AddImportSpec name path g3 = (g4, Some err) ->
      DeclareFromTemplate s data g
      = (g4, Failed (CouldNotAddExplicitImport (ImportSpec name path) err))
      /\
      Error (CouldNotAddExplicitImport (ImportSpec name path) err)
      = "could not add explicit import "
          +:+ fmt_spec (ImportSpec name path) +:+ ": " +:+ Error err).
Proof.
  split.
  - intros s data g g1 g' pre specs post Hfrag Hcall.
    pose proof (fragment_cases s data g) as Hc. rewrite Hfrag in Hc.
    destruct Hc as (out & f & _ & _ & _ & _ & Hdft).
    rewrite Hdft in Hcall.
    apply rangeOver_app_Nil in Hcall as (g2 & g3' & Hpre & Hd & Hpost).
    destruct (declare_cases (GenDecl (mkGenDecl IMPORT specs)) g2)
      as [(g3 & Hrec & Heq)|(g3 & r & Hrec & Hr & Heq)];
      rewrite Heq in Hd; [|by injection Hd as _ ->].
    injection Hd as <-. exists g2, g3. split; [done|]. split; [|done].
    by apply recordImportSpecs_added.
  - intros s data g g1 g2 g3 g4 pre specs1 name path specs2 post err
      Hfrag Hpre Hadded Hfail.
    split; [|done].
    pose proof (fragment_cases s data g) as Hc. rewrite Hfrag in Hc.
    destruct Hc as (out & f & _ & _ & _ & _ & ->).
    eapply rangeOver_app_stop; [exact Hpre| |done].
    unfold declare. simpl. unfold recordGenDeclNames. simpl.
    rewrite (rangeOver_app_stop recordImportSpec specs1
               (ImportSpec name path) specs2 g2 g3 g4
               (Failed (CouldNotAddExplicitImport (ImportSpec name path)
                          err))); [done| | |done].
    + by apply added_recordImportSpecs.
    + simpl. by rewrite Hfail.
Qed.

(** C7.  [Import] called twice with one path returns the same alias both
    times, and the second call changes nothing; in every generator the
    exported operations can build, the alias of a path stays the same after
    another path is imported, and two distinct paths get distinct
    aliases. *)
Theorem Import_idempotent_and_distinct :
  (forall g p,
      Import p (Import p g).2 = ((Import p g).1, (Import p g).2)) /\
  (forall g p q,
      reachable g ->
      (Import p (Import q (Import p g).2).2).1 = (Import p g).1 /\
      (p <> q -> (Import q (Import p g).2).1 <> (Import p g).1)).
Proof.
  split; [intros; apply Import_twice|].
  intros g p q Hreach.
  apply reachable_ok in Hreach as [Hok _].
  pose proof (Import_registry_ok p g Hok) as Hok1.
  pose proof (Import_registered p g) as Hp.
  destruct (Import p g) as [a1 g1]. simpl in *.
  pose proof (Import_registry_ok q g1 Hok1) as Hok2.
  pose proof (Import_registered q g1) as Hq.
  pose proof (Import_importsOnly q g1) as (_ & _ & Hincl & _).
  destruct (Import q g1) as [a2 g2]. simpl in *.
  assert (imports (g_importer g2) !! p = Some a1) as Hp2.
  { by eapply lookup_weaken. }
  split.
  - by rewrite (Import_known p a1 g2 Hp2).
  - intros Hne ->. destruct Hok2 as [_ Hinj].
    apply Hne. by eapply Hinj.
Qed.

(** C8.  A function declaration with a receiver is appended with no name
    reserved for it, whatever names are taken; a fragment made of methods
    is always accepted and reserves nothing; so two fragments each defining
    a method of the same name are both accepted. *)
Theorem method_names_not_reserved :
  (forall recv name body g,
      declare (FuncDecl (Some recv) name body) g
      = (appendDecl (FuncDecl (Some recv) name body) g, Nil)) /\
  (forall s data g g1 ds,
      fragment s data g = Some (g1, ds) ->
      Forall (fun d => isMethod d = true) ds ->
      exists g',
        DeclareFromTemplate s data g = (g', Nil) /\
        decls g' = decls g ++ ds /\ reserved g' = reserved g1) /\
  (forall s1 data1 s2 data2 g g1 g3 recv1 recv2 name body1 body2,
      fragment s1 data1 g = Some (g1, [FuncDecl (Some recv1) name body1]) ->
      fragment s2 data2 (DeclareFromTemplate s1 data1 g).1
      = Some (g3, [FuncDecl (Some recv2) name body2]) ->
      (DeclareFromTemplate s1 data1 g).2 = Nil /\
      (DeclareFromTemplate s2 data2 (DeclareFromTemplate s1 data1 g).1).2
      = Nil /\
      decls (DeclareFromTemplate s2 data2 (DeclareFromTemplate s1 data1 g).1).1
      = decls g ++ [FuncDecl (Some recv1) name body1;
                    FuncDecl (Some recv2) name body2]).
Proof.
  assert (forall s data g g1 ds,
      fragment s data g = Some (g1, ds) ->
      Forall (fun d => isMethod d = true) ds ->
      exists g',
        DeclareFromTemplate s data g = (g', Nil) /\
        decls g' = decls g ++ ds /\ reserved g' = reserved g1) as Hmethods.
  { intros s data g g1 ds Hfrag Hall.
    pose proof (fragment_cases s data g) as Hcases. rewrite Hfrag in Hcases.
    destruct Hcases as (out & f & Htext & _ & _ & _ & ->).
    pose proof (TextTemplate_importsOnly s data g) as (Hd & _).
    rewrite Htext in Hd. simpl in Hd.
    destruct (methods_declared ds g1 Hall) as (g' & Hloop & Hdecls & Hres & _).
    exists g'. by rewrite <- Hd. }
  split; [done|]. split; [exact Hmethods|].
  intros s1 data1 s2 data2 g g1 g3 recv1 recv2 name body1 body2 Hf1 Hf2.
  destruct (Hmethods _ _ _ _ _ Hf1) as (g' & Hcall1 & Hd1 & _).
  { by repeat constructor. }
  rewrite Hcall1 in *. simpl in *.
  destruct (Hmethods _ _ _ _ _ Hf2) as (g'' & Hcall2 & Hd2 & _).
  { by repeat constructor. }
  rewrite Hcall2. simpl. split; [done|]. split; [done|].
  by rewrite Hd2, Hd1, <- app_assoc.
Qed.

(** C9.  When rendering succeeds, the bytes [DeclareFromTemplate] hands to
    the parser are the header [package thriftrw] and two newlines followed
    by the rendered output, and nothing else.  Hence, for a parser that
    rejects a second package clause, as Go's grammar demands, a fragment
    whose rendered text begins with a package clause is never accepted. *)
Theorem parser_input_is_header_then_output s data g g1 out :
  TextTemplate s data g = (g1, (out, None)) ->
  renderTemplate s data g = (g1, (Some (header +:+ out), None)) /\
  DeclareFromTemplate s data g
  = match parser_ParseFile (header +:+ out) with
    | inl diag => (g1, Failed (CouldNotParse diag (header +:+ out)))
    | inr f => rangeOver declare (Decls f) g1
    end /\
  ((forall rest, exists diag,
       parser_ParseFile (header +:+ "package " +:+ rest) = inl diag) ->
   forall rest, out = "package " +:+ rest ->
     exists diag,
       DeclareFromTemplate s data g
       = (g1, Failed (CouldNotParse diag (header +:+ out))) /\
       decls g1 = decls g).
Proof.
  intros Htext.
  assert (renderTemplate s data g = (g1, (Some (header +:+ out), None)))
    as Hrender.
  { unfold renderTemplate. by rewrite Htext. }
  assert (DeclareFromTemplate s data g
          = match parser_ParseFile (header +:+ out) with
            | inl diag => (g1, Failed (CouldNotParse diag (header +:+ out)))
            | inr f => rangeOver declare (Decls f) g1
            end) as Hcall.
  { unfold DeclareFromTemplate. by rewrite Hrender. }
  split; [done|]. split; [done|].
  intros Hgrammar rest ->. destruct (Hgrammar rest) as [diag Hdiag].
  exists diag. rewrite Hcall, Hdiag. split; [done|].
  pose proof (TextTemplate_importsOnly s data g) as (Hd & _).
  by rewrite Htext in Hd.
Qed.

(** C10.  For a general declaration whose token is IMPORT, CONST, TYPE or
    VAR, [recordGenDeclNames] never returns the "unknown declaration"
    error of its default branch. *)
Theorem recordGenDeclNames_known_token d g :
  Tok d = IMPORT \/ Tok d = CONST \/ Tok d = TYPE \/ Tok d = VAR ->
  forall d', (recordGenDeclNames d g).2 <> Failed (UnknownDeclaration d').
Proof.
  intros Htok d'. unfold recordGenDeclNames.
  set (P := fun r : outcome => r <> Failed (UnknownDeclaration d')).
  assert (forall wrap name g0,
             (forall e, wrap name e <> UnknownDeclaration d') ->
             P (reserveOr wrap name g0).2) as Hreserve.
  { intros wrap name g0 Hwrap. unfold reserveOr, P.
    destruct (Reserve name g0) as [g1 [err|]]; simpl; [|done].
    intros [= Heq]. by eapply Hwrap. }
  assert (forall wrap spec g0,
             (forall name e, wrap name e <> UnknownDeclaration d') ->
             P (recordValueSpec wrap spec g0).2) as Hvalue.
  { intros wrap [| names rest |] g0 Hwrap; simpl; try done.
    apply rangeOver_outcome; [done|]. intros name g1.
    apply Hreserve. apply Hwrap. }
  destruct (Tok d) eqn:Htok';
    try (exfalso; clear -Htok; intuition congruence);
    apply (rangeOver_outcome P); try done.
  - intros spec g0. by apply Hvalue.
  - intros [name path| |] g0; simpl; try done.
    by destruct (AddImportSpec name path g0) as [g1 [err|]].
  - intros [| |name t] g0; simpl; try done. by apply Hreserve.
  - intros spec g0. by apply Hvalue.
Qed.

End Properties.

(** * Further properties *)

Section Further.
Context `{libs : GoLibs}.

Lemma rangeOver_outcome_Forall {A} (P : outcome -> Prop)
    (body : A -> Generator -> Generator * outcome) l g :
  P Nil -> Forall (fun x => forall g0, P (body x g0).2) l ->
  P (rangeOver body l g).2.
Proof.
  intros Hnil Hall. revert g.
  induction Hall as [|x l Hx _ IH]; intros g; simpl; [done|].
  specialize (Hx g). destruct (body x g) as [g1 [|err|]]; simpl in *; auto.
Qed.

Lemma recordDeclNames_no_panic decl g :
  specsMatch decl = true -> (recordDeclNames decl g).2 <> Panicked.
Proof.
  intros Hspecs.
  destruct (namesOnly decl) eqn:Hplain.
  { rewrite (recordDeclNames_flat decl g Hplain).
    pose proof (names_loop (wrapOf decl) (declNames decl) g) as Hloop.
    by destruct (rangeOver _ _ g) as [g1 [|err|]]. }
  destruct decl as [|[recv|] name body|d]; try done.
  simpl in *. unfold recordGenDeclNames.
  destruct (Tok d) eqn:Htok; try done; try congruence.
  apply (rangeOver_outcome_Forall (fun r => r <> Panicked)); [done|].
  apply Forall_forall. intros spec Hin g0.
  rewrite forallb_forall in Hspecs.
  apply list_elem_of_In in Hin. specialize (Hspecs spec Hin).
  destruct spec as [name path| |]; simpl in *; try done.
  by destruct (AddImportSpec name path g0) as [g1 [err|]].
Qed.

Lemma loop_no_panic ds g :
  Forall (fun d => specsMatch d = true) ds ->
  (rangeOver declare ds g).2 <> Panicked.
Proof.
  intros Hall.
  apply (rangeOver_outcome_Forall (fun r => r <> Panicked)); [done|].
  eapply Forall_impl; [exact Hall|]. intros d Hd g0. simpl.
  pose proof (recordDeclNames_no_panic d g0 Hd) as Hrec.
  unfold declare. by destruct (recordDeclNames d g0) as [g1 [|err|]].
Qed.

(** X1.  When every spec has the dynamic type asserted under the token of
    its declaration, as in the trees the parser builds, no call of
    [DeclareFromTemplate] panics.  The assertion is real: under one of the
    four tokens a first spec of another type makes [recordGenDeclNames]
    panic, before anything is recorded. *)
Theorem matching_specs_never_panic :
  (forall s data g,
      (forall g1 ds, fragment s data g = Some (g1, ds) ->
                     Forall (fun d => specsMatch d = true) ds) ->
      (DeclareFromTemplate s data g).2 <> Panicked) /\
  (forall d g spec rest,
      knownToken (Tok d) = true ->
      Specs d = spec :: rest ->
      specMatches (Tok d) spec = false ->
      recordGenDeclNames d g = (g, Panicked)).
Proof.
  split.
  - intros s data g Hparser.
    pose proof (fragment_cases s data g) as Hc.
    destruct (fragment s data g) as [[g1 ds]|].
    + destruct Hc as (out & f & _ & _ & _ & _ & ->).
      apply loop_no_panic. by apply (Hparser g1).
    + by destruct Hc as [(g1 & err & _ & ->)|(g1 & out & diag & _ & _ & ->)].
  - intros d g spec rest Htok Hspecs Hspec.
    unfold recordGenDeclNames. rewrite Hspecs.
    destruct (Tok d); try discriminate; by destruct spec.
Qed.

(** X2.  A general declaration whose token is none of IMPORT, CONST, TYPE
    and VAR takes the default branch: [recordGenDeclNames] returns the
    "unknown declaration" error and changes nothing; the loop of
    [DeclareFromTemplate] stops there with that error, with the
    declarations before it appended and the declaration itself and the
    later ones left out. *)
Theorem unknown_token_is_rejected d g :
  knownToken (Tok d) = false ->
  recordGenDeclNames d g = (g, Failed (UnknownDeclaration d)) /\
  Error (UnknownDeclaration d) = "unknown declaration: " +:+ fmt_decl d /\
  (forall pre post g0,
      rangeOver declare pre g0 = (g, Nil) ->
      rangeOver declare (pre ++ GenDecl d :: post) g0
      = (g, Failed (UnknownDeclaration d)) /\
      decls g = decls g0 ++ pre).
Proof.
  intros Htok.
  assert (recordGenDeclNames d g = (g, Failed (UnknownDeclaration d)))
    as Hrec.
  { unfold recordGenDeclNames. by destruct (Tok d). }
  split; [done|]. split; [done|].
  intros pre post g0 Hpre. split.
  - eapply rangeOver_app_stop; [exact Hpre| |done].
    unfold declare. simpl. by rewrite Hrec.
  - by apply loop_decls in Hpre.
Qed.

(** X3.  How recording the names of a function, constant, type or variable
    declaration fails: at the first of its names, left to right, that is
    unavailable or repeats an earlier name of the declaration; the names
    before it are pairwise distinct and were all available.  The error
    names that identifier, bare for a function and wrapped with the kind
    for the others; the names before it stay reserved, the declaration is
    not appended, and the registry is untouched. *)
Theorem name_failure_anatomy decl g g' err :
  namesOnly decl = true ->
  recordDeclNames decl g = (g', Failed err) ->
  declare decl g = (g', Failed err) /\
  exists pre name post,
    declNames decl = pre ++ name :: post /\
    err = wrapOf decl name (NameCollisionError name) /\
    NoDup pre /\
    (forall x, x ∈ pre -> available x (g_namespace g) = true) /\
    (name ∈ pre \/ available name (g_namespace g) = false) /\
    available name (g_namespace g') = false /\
    reserved g' = list_to_set pre ∪ reserved g /\
    decls g' = decls g /\ g_importer g' = g_importer g.
Proof.
  intros Hplain Hrec. split.
  { unfold declare. by rewrite Hrec. }
  rewrite (recordDeclNames_flat decl g Hplain) in Hrec.
  pose proof (names_loop (wrapOf decl) (declNames decl) g) as Hloop.
  rewrite Hrec in Hloop.
  destruct Hloop as (pre & name & post & Hnames & Herr & Hnd & Hfree & Hwhy
                     & Hav & Hres & Hd & Hi).
  exists pre, name, post. done.
Qed.

Lemma declared_cons d ds : declared (d :: ds) = declNames d ++ declared ds.
Proof. done. Qed.

(** The loop over declarations that only reserve names, by outcome. *)
Lemma names_only_loop ds g :
  Forall (fun d => namesOnly d = true) ds ->
  match rangeOver declare ds g with
  | (g', Nil) =>
      NoDup (declared ds) /\
      (forall x, x ∈ declared ds -> available x (g_namespace g) = true) /\
      reserved g' = list_to_set (declared ds) ∪ reserved g /\
      decls g' = decls g ++ ds /\ g_importer g' = g_importer g
  | (g', _) =>
      ~ (NoDup (declared ds) /\
         forall x, x ∈ declared ds -> available x (g_namespace g) = true)
  end.
Proof.
  intros Hall. revert g.
  induction Hall as [|d ds Hd _ IH]; intros g; simpl.
  - split; [constructor|]. split; [intros x Hx; inversion Hx|].
    split; [apply union_nil_set|]. by rewrite app_nil_r.
  - unfold declare at 1. rewrite (recordDeclNames_flat d g Hd).
    pose proof (names_loop (wrapOf d) (declNames d) g) as Hloop.
    destruct (rangeOver (reserveOr (wrapOf d)) (declNames d) g)
      as [g1 [|err|]]; [| |done].
    + destruct Hloop as (Hnd & Hfree & Hres & Hdecls & Himp).
      specialize (IH (appendDecl d g1)).
      assert (reserved (appendDecl d g1)
              = list_to_set (declNames d) ∪ reserved g) as Hres1 by done.
      rewrite declared_cons.
      destruct (rangeOver declare ds (appendDecl d g1)) as [g' [|err|]].
      * destruct IH as (Hnd' & Hfree' & Hres' & Hdecls' & Himp').
        split.
        { apply NoDup_app. split; [done|]. split; [|done].
          intros x Hx Hx'. apply Hfree' in Hx'.
          apply (available_after x _ g _ Hres1) in Hx' as [_ Hx'].
          apply Hx'. by apply elem_of_list_to_set. }
        split.
        { intros x [Hx|Hx]%elem_of_app; [by apply Hfree|].
          apply Hfree' in Hx.
          by apply (available_after x _ g _ Hres1) in Hx as [Hx _]. }
        split.
        { rewrite Hres', Hres1, list_to_set_app_L.
          apply set_eq. intros x. rewrite !elem_of_union. tauto. }
        split; [|by rewrite Himp'].
        rewrite Hdecls'. simpl. rewrite Hdecls, <- app_assoc. done.
      * intros [Hnd' Hfree']. apply IH.
        apply NoDup_app in Hnd' as (_ & Hdisj & Hnd').
        split; [done|]. intros x Hx.
        apply (available_after x _ g _ Hres1). split.
        -- apply Hfree'. apply elem_of_app. by right.
        -- intros Hin%elem_of_list_to_set. by apply (Hdisj x).
      * intros [Hnd' Hfree']. apply IH.
        apply NoDup_app in Hnd' as (_ & Hdisj & Hnd').
        split; [done|]. intros x Hx.
        apply (available_after x _ g _ Hres1). split.
        -- apply Hfree'. apply elem_of_app. by right.
        -- intros Hin%elem_of_list_to_set. by apply (Hdisj x).
    + destruct Hloop as (pre & name & post & Hnames & _ & _ & _ & Hwhy & _).
      rewrite declared_cons, Hnames. intros [Hnd Hfree].
      destruct Hwhy as [Hin|Hno].
      * apply NoDup_app in Hnd as (Hnd & _).
        apply NoDup_app in Hnd as (_ & Hdisj & _).
        apply (Hdisj name Hin). apply elem_of_cons. by left.
      * assert (available name (g_namespace g) = true) as Ht.
        { apply Hfree. rewrite !elem_of_app, elem_of_cons. auto. }
        congruence.
Qed.

(** X4.  A fragment made of functions, methods and constant, type and
    variable declarations is accepted exactly when the names it introduces
    are pairwise distinct and all available once rendering is done.  Then
    its declarations are appended in order, and the reserved names grow by
    exactly the names it introduces. *)
Theorem fresh_names_are_accepted s data g g1 ds :
  fragment s data g = Some (g1, ds) ->
  Forall (fun d => namesOnly d = true) ds ->
  ((DeclareFromTemplate s data g).2 = Nil
   <-> NoDup (declared ds) /\
       forall x, x ∈ declared ds -> available x (g_namespace g1) = true) /\
  ((DeclareFromTemplate s data g).2 = Nil ->
   decls (DeclareFromTemplate s data g).1 = decls g ++ ds /\
   reserved (DeclareFromTemplate s data g).1
   = list_to_set (declared ds) ∪ reserved g1 /\
   g_importer (DeclareFromTemplate s data g).1 = g_importer g1).
Proof.
  intros Hfrag Hall.
  pose proof (fragment_cases s data g) as Hc. rewrite Hfrag in Hc.
  destruct Hc as (out & f & Htext & _ & _ & _ & ->).
  pose proof (TextTemplate_importsOnly s data g) as (Hd & _).
  rewrite Htext in Hd. simpl in Hd.
  pose proof (names_only_loop ds g1 Hall) as Hloop.
  destruct (rangeOver declare ds g1) as [g' [|err|]]; simpl.
  - destruct Hloop as (Hnd & Hfree & Hres & Hdecls & Himp).
    split; [done|]. intros _. by rewrite Hdecls, Hd.
  - split; [split; [done | intros H; by destruct Hloop]| done].
  - split; [split; [done | intros H; by destruct Hloop]| done].
Qed.

Lemma loop_free ds g g' :
  rangeOver declare ds g = (g', Nil) ->
  forall x, x ∈ declared ds -> x ∉ reserved g.
Proof.
  revert g. induction ds as [|d ds IH]; intros g; simpl.
  - intros _ x Hx. inversion Hx.
  - destruct (declare_cases d g)
      as [(g1 & Hrec & ->)|(g1 & r & Hrec & Hr & ->)];
      [|by destruct r].
    intros Hloop x. rewrite declared_cons.
    pose proof (recordDeclNames_reservedNew d g g1 Hrec) as (_ & Hfree & _).
    intros [Hx|Hx]%elem_of_app; [by apply Hfree|].
    pose proof (recordDeclNames_registers d g) as (_ & Hsub & _).
    rewrite Hrec in Hsub. simpl in Hsub.
    intros Hin. apply (IH _ Hloop x Hx). by apply Hsub.
Qed.

Lemma declareAll_keeps calls g :
  reserved g ⊆ reserved (declareAll calls g) /\
  exists ds, decls (declareAll calls g) = decls g ++ ds.
Proof.
  unfold declareAll. revert g.
  induction calls as [|[s data] calls IH]; intros g; simpl.
  - split; [done|]. exists []. by rewrite app_nil_r.
  - destruct (IH (DeclareFromTemplate s data g).1) as (Hsub & ds & Hds).
    destruct (DeclareFromTemplate_keeps s data g) as (Hsub1 & _).
    split; [by etrans|].
    assert (exists ds1, decls (DeclareFromTemplate s data g).1
                        = decls g ++ ds1) as [ds1 Hds1].
    { pose proof (fragment_cases s data g) as Hc.
      pose proof (TextTemplate_importsOnly s data g) as (Hd & _).
      destruct (fragment s data g) as [[g1 fs]|].
      - destruct Hc as (out & f & Htext & _ & _ & _ & Hcall).
        rewrite Htext in Hd. simpl in Hd.
        destruct (rangeOver declare fs g1) as [g' r] eqn:Hloop.
        rewrite Hcall. simpl. apply loop_decls in Hloop.
        destruct r as [|err|].
        + exists fs. by rewrite Hloop, Hd.
        + destruct Hloop as (pre & _ & _ & _ & _ & _ & _ & Hpre).
          exists pre. by rewrite Hpre, Hd.
        + destruct Hloop as (pre & _ & _ & _ & _ & _ & _ & Hpre).
          exists pre. by rewrite Hpre, Hd.
      - exists []. rewrite app_nil_r.
        destruct Hc as [(g1 & err & Htext & ->)
                       |(g1 & out & diag & Htext & _ & ->)];
          by rewrite Htext in Hd. }
    exists (ds1 ++ ds). by rewrite Hds, Hds1, <- app_assoc.
Qed.

(** X5.  A name introduced by an accepted fragment stays reserved through
    every later sequence of calls, whatever they return, so a later
    fragment that introduces the name again is never accepted. *)
Theorem declared_name_is_never_redeclared
    s1 data1 g g1 ds1 calls s2 data2 g3 ds2 x :
  fragment s1 data1 g = Some (g1, ds1) ->
  (DeclareFromTemplate s1 data1 g).2 = Nil ->
  x ∈ declared ds1 ->
  fragment s2 data2 (declareAll calls (DeclareFromTemplate s1 data1 g).1)
  = Some (g3, ds2) ->
  x ∈ declared ds2 ->
  x ∈ reserved g3 /\
  (DeclareFromTemplate s2 data2
     (declareAll calls (DeclareFromTemplate s1 data1 g).1)).2 <> Nil.
Proof.
  intros Hf1 Hnil Hx1 Hf2 Hx2.
  pose proof (fragment_cases s1 data1 g) as Hc1. rewrite Hf1 in Hc1.
  destruct Hc1 as (_ & _ & _ & _ & _ & _ & Hcall1).
  destruct (DeclareFromTemplate s1 data1 g) as [g' r] eqn:Hdft.
  simpl in *. subst r. symmetry in Hcall1.
  pose proof (loop_reserves ds1 g1 g' Hcall1 x Hx1) as Hres.
  destruct (declareAll_keeps calls g') as (Hsub & _).
  set (g2 := declareAll calls g') in *.
  pose proof (fragment_cases s2 data2 g2) as Hc2. rewrite Hf2 in Hc2.
  destruct Hc2 as (out & f & Htext & _ & _ & _ & ->).
  pose proof (TextTemplate_importsOnly s2 data2 g2) as (_ & Hsub2 & _).
  rewrite Htext in Hsub2. simpl in Hsub2.
  assert (x ∈ reserved g3) as Hin by (apply Hsub2, Hsub, Hres).
  split; [done|].
  destruct (rangeOver declare ds2 g3) as [g4 r] eqn:Hloop. simpl.
  intros ->. by apply (loop_free ds2 g3 g4 Hloop x Hx2).
Qed.

(** X6.  A sequence of [DeclareFromTemplate] calls, whatever each returns,
    only appends: the declarations accepted before stay first, in their
    order, and no reserved name is released. *)
Theorem calls_only_append calls g :
  reserved g ⊆ reserved (declareAll calls g) /\
  decls g `prefix_of` decls (declareAll calls g).
Proof.
  destruct (declareAll_keeps calls g) as (Hsub & ds & Hds).
  split; [done|]. by exists ds.
Qed.

Lemma aliasesFresh_refl g : aliasesFresh g g.
Proof. split; [done|]. intros; by left. Qed.

Lemma aliasesFresh_trans g1 g2 g3 :
  aliasesFresh g1 g2 -> aliasesFresh g2 g3 -> aliasesFresh g1 g3.
Proof.
  intros [Hs1 Ha1] [Hs2 Ha2]. split; [by etrans|].
  intros path alias Hlook.
  destruct (Ha2 path alias Hlook) as [Hold|Hnew]; [by apply Ha1|].
  right. intros Hin. apply Hnew. by apply Hs1.
Qed.

Lemma aliasesFresh_same_importer g g' :
  g_importer g' = g_importer g -> reserved g ⊆ reserved g' ->
  aliasesFresh g g'.
Proof. intros Hi Hs. split; [done|]. intros p a. rewrite Hi. by left. Qed.

Lemma aliasesFresh_insert path alias g n' :
  alias ∉ reserved g ->
  taken n' = {[ alias ]} ∪ reserved g ->
  aliasesFresh g
    (withScopes (mkImporter (<[ path := alias ]> (imports (g_importer g))))
       n' g).
Proof.
  intros Hfresh Hn'. split.
  - unfold reserved at 2. simpl. rewrite Hn'. apply union_subseteq_r.
  - intros p a. simpl. rewrite lookup_insert. case_decide as Hp.
    + intros [= <-]. by right.
    + by left.
Qed.

Lemma Import_aliasesFresh path g : aliasesFresh g (Import path g).2.
Proof.
  unfold Import, importer_Import.
  destruct (imports (g_importer g) !! path) as [alias|] eqn:Hlook.
  - simpl. rewrite withScopes_same. apply aliasesFresh_refl.
  - pose proof (namespace_NewName_fresh (aliasBase path) (g_namespace g))
      as Hfresh.
    destruct (namespace_NewName _ _) as [alias n'] eqn:Hnew. simpl in *.
    apply available_true in Hfresh as [_ Hfresh].
    apply aliasesFresh_insert; [done|].
    unfold namespace_NewName in Hnew. by injection Hnew as <- <-.
Qed.

Lemma AddImportSpec_aliasesFresh name path g :
  aliasesFresh g (AddImportSpec name path g).1.
Proof.
  destruct (AddImportSpec_cases name path g) as [[Hav ->]|[_ ->]]; simpl.
  - apply available_true in Hav as [_ Hav]. by apply aliasesFresh_insert.
  - apply aliasesFresh_refl.
Qed.

Lemma execute_aliasesFresh e child buff g :
  aliasesFresh g (execute e child buff g).1.
Proof.
  revert child buff g.
  induction e as [|msg|text k IH|path k IH|base k IH]; intros child buff g;
    simpl; try apply aliasesFresh_refl.
  - apply IH.
  - pose proof (Import_aliasesFresh path g) as Himp.
    destruct (Import path g) as [alias g1]. simpl in Himp.
    eapply aliasesFresh_trans; [exact Himp | apply IH].
  - destruct (child_NewName base (g_namespace g) child) as [name child'].
    apply IH.
Qed.

Lemma TextTemplate_aliasesFresh s data g :
  aliasesFresh g (TextTemplate s data g).1.
Proof.
  destruct (TextTemplate_cases s data g)
    as [(msg & _ & ->)|[(tmpl & g' & buff & _ & Hex & ->)
                       |(tmpl & g' & buff & err & _ & Hex & ->)]]; simpl.
  - apply aliasesFresh_refl.
  - pose proof (execute_aliasesFresh (template_Execute tmpl data) ∅ "" g).
    by rewrite Hex in *.
  - pose proof (execute_aliasesFresh (template_Execute tmpl data) ∅ "" g).
    by rewrite Hex in *.
Qed.

Lemma rangeOver_aliasesFresh {A}
    (body : A -> Generator -> Generator * outcome) l g :
  (forall x g0, aliasesFresh g0 (body x g0).1) ->
  aliasesFresh g (rangeOver body l g).1.
Proof.
  intros Hbody. revert g.
  induction l as [|x l IH]; intros g; simpl; [apply aliasesFresh_refl|].
  pose proof (Hbody x g) as Hx.
  destruct (body x g) as [g1 [| err |]]; simpl in *; [|done..].
  eapply aliasesFresh_trans; [exact Hx | apply IH].
Qed.

Lemma reserveOr_aliasesFresh wrap name g :
  aliasesFresh g (reserveOr wrap name g).1.
Proof.
  destruct (reserveOr_cases wrap name g) as [[_ ->]|[_ ->]]; simpl.
  - apply aliasesFresh_same_importer; [done|].
    unfold reserved at 2. simpl. apply union_subseteq_r.
  - apply aliasesFresh_refl.
Qed.

Lemma recordDeclNames_aliasesFresh decl g :
  aliasesFresh g (recordDeclNames decl g).1.
Proof.
  destruct decl as [|[recv|] name body|d]; simpl;
    try apply aliasesFresh_refl.
  - apply reserveOr_aliasesFresh.
  - unfold recordGenDeclNames.
    destruct (Tok d); simpl; try apply aliasesFresh_refl;
      apply rangeOver_aliasesFresh; intros spec g0.
    + destruct spec; simpl; try apply aliasesFresh_refl.
      apply rangeOver_aliasesFresh. intros. apply reserveOr_aliasesFresh.
    + destruct spec as [name path| |]; simpl; try apply aliasesFresh_refl.
      pose proof (AddImportSpec_aliasesFresh name path g0) as H.
      by destruct (AddImportSpec name path g0) as [g1 [err|]].
    + destruct spec; simpl; try apply aliasesFresh_refl.
      apply reserveOr_aliasesFresh.
    + destruct spec; simpl; try apply aliasesFresh_refl.
      apply rangeOver_aliasesFresh. intros. apply reserveOr_aliasesFresh.
Qed.

(** Fresh aliases keep aliases and declared names apart as long as the
    declarations stay. *)
Lemma aliases_apart_step g g' :
  names_ok g -> aliases_apart g ->
  aliasesFresh g g' -> decls g' = decls g ->
  aliases_apart g'.
Proof.
  intros [_ Hres] Hapart [_ Hfresh] Hd path alias Hlook. rewrite Hd.
  destruct (Hfresh path alias Hlook) as [Hold|Hnew]; [by eapply Hapart|].
  intros Hin. apply Hnew. by apply Hres.
Qed.

Lemma rangeOver_same_importer {A}
    (body : A -> Generator -> Generator * outcome) l g :
  (forall x g0, g_importer (body x g0).1 = g_importer g0) ->
  g_importer (rangeOver body l g).1 = g_importer g.
Proof.
  intros Hbody. revert g.
  induction l as [|x l IH]; intros g; simpl; [done|].
  pose proof (Hbody x g) as Hx.
  destruct (body x g) as [g1 [| err |]]; simpl in *; [|done..].
  by rewrite IH.
Qed.

Lemma reserveOr_same_importer wrap name g :
  g_importer (reserveOr wrap name g).1 = g_importer g.
Proof. by destruct (reserveOr_cases wrap name g) as [[_ ->]|[_ ->]]. Qed.

(** A declaration that introduces a name leaves the registry alone. *)
Lemma recordDeclNames_same_importer decl g x :
  x ∈ declNames decl ->
  g_importer (recordDeclNames decl g).1 = g_importer g.
Proof.
  destruct decl as [|[recv|] name body|d]; simpl;
    try (intros Hx; by inversion Hx).
  - intros _. apply reserveOr_same_importer.
  - unfold recordGenDeclNames.
    destruct (Tok d); simpl; try (intros Hx; by inversion Hx); intros _;
      apply rangeOver_same_importer; intros spec g0;
      destruct spec; simpl; try done;
      try apply reserveOr_same_importer;
      apply rangeOver_same_importer; intros;
      apply reserveOr_same_importer.
Qed.

Lemma declare_aliases_apart decl g :
  registry_ok g -> names_ok g -> aliases_apart g ->
  aliases_apart (declare decl g).1.
Proof.
  intros Hreg Hnames Hapart.
  pose proof (recordDeclNames_aliasesFresh decl g) as Hfresh.
  pose proof (recordDeclNames_registers decl g) as (Hd & Hsub & _).
  pose proof (recordDeclNames_same_importer decl g) as Hsame.
  destruct (declare_cases decl g)
    as [(g1 & Hrec & ->)|(g1 & r & Hrec & Hr & ->)];
    rewrite Hrec in *; simpl in *.
  - pose proof (recordDeclNames_reservedNew decl g g1 Hrec)
      as (_ & Hfree & _).
    intros path alias Hlook. simpl in Hlook. simpl.
    rewrite Hd, declared_snoc, not_elem_of_app.
    split.
    + destruct Hfresh as [_ Hfresh].
      destruct (Hfresh path alias Hlook) as [Hold|Hnew];
        [by eapply Hapart|].
      intros Hin. apply Hnew. destruct Hnames as [_ Hres]. by apply Hres.
    + intros Hin. apply (Hfree alias Hin).
      rewrite (Hsame alias Hin) in Hlook.
      destruct Hreg as [Hres _]. by eapply Hres.
  - by eapply aliases_apart_step.
Qed.

Lemma loop_aliases_apart ds g :
  registry_ok g -> names_ok g -> aliases_apart g ->
  aliases_apart (rangeOver declare ds g).1.
Proof.
  revert g. induction ds as [|d ds IH]; intros g Hreg Hnames Hapart; simpl;
    [done|].
  pose proof (declare_aliases_apart d g Hreg Hnames Hapart) as Hstep.
  destruct (declare_keeps d g) as (_ & Hreg' & Hnames').
  destruct (declare d g) as [g1 [|err|]]; simpl in *; [|done..].
  apply IH; auto.
Qed.

Lemma DeclareFromTemplate_aliases_apart s data g :
  registry_ok g -> names_ok g -> aliases_apart g ->
  aliases_apart (DeclareFromTemplate s data g).1.
Proof.
  intros Hreg Hnames Hapart.
  pose proof (TextTemplate_importsOnly s data g) as Himp.
  pose proof (TextTemplate_registry_ok s data g Hreg) as Hreg1.
  pose proof (TextTemplate_aliasesFresh s data g) as Hfresh.
  pose proof (importsOnly_names_ok _ _ Himp Hnames) as Hnames1.
  destruct Himp as (Hd & _).
  pose proof (aliases_apart_step _ _ Hnames Hapart Hfresh Hd) as Hapart1.
  pose proof (fragment_cases s data g) as Hfrag.
  destruct (fragment s data g) as [[g1 ds]|].
  - destruct Hfrag as (out & f & Htext & _ & _ & _ & ->).
    rewrite Htext in *. simpl in *. by apply loop_aliases_apart.
  - destruct Hfrag as [(g1 & err & Htext & ->)
                      |(g1 & out & diag & Htext & _ & ->)];
      by rewrite Htext in *.
Qed.

(** X9.  The importer shares the generator's root scope, so in any
    generator the exported operations can build, every import alias is
    reserved and none is a name introduced by an accepted declaration or
    by the written file. *)
Theorem aliases_never_clash_with_declarations g :
  reachable g ->
  forall path alias,
    imports (g_importer g) !! path = Some alias ->
    (alias ∈ reserved g) /\
    (alias ∉ declared (decls g)) /\
    (alias ∉ declared (Decls (writtenFile g))).
Proof.
  intros Hreach.
  assert (aliases_apart g) as Hapart.
  { induction Hreach as [|s data g Hg IH|s data g Hg IH|path g Hg IH
                          |name g Hg IH|name path g Hg IH];
      try (pose proof (reachable_ok g Hg) as [Hreg Hnames]).
    - intros p a Hlook. simpl in Hlook. by rewrite lookup_empty in Hlook.
    - by apply DeclareFromTemplate_aliases_apart.
    - eapply aliases_apart_step; [done | done | |].
      + apply TextTemplate_aliasesFresh.
      + by destruct (TextTemplate_importsOnly s data g).
    - eapply aliases_apart_step; [done | done | |].
      + apply Import_aliasesFresh.
      + by destruct (Import_importsOnly path g).
    - eapply aliases_apart_step; [done | done | |].
      + pose proof (reserveOr_aliasesFresh (fun _ e => e) name g) as H.
        unfold reserveOr in H.
        by destruct (Reserve name g) as [g1 [err|]].
      + pose proof (reserveOr_registers (fun _ e => e) name g) as (H & _).
        unfold reserveOr in H.
        by destruct (Reserve name g) as [g1 [err|]].
    - eapply aliases_apart_step; [done | done | |].
      + apply AddImportSpec_aliasesFresh.
      + by destruct (AddImportSpec_frame name path g). }
  intros path alias Hlook.
  pose proof (reachable_ok g Hreach) as [[Hres _] _].
  split; [by eapply Hres|].
  assert (alias ∉ declared (decls g)) as Hno by by eapply Hapart.
  split; [done|].
  assert (declared (Decls (writtenFile g)) = declared (decls g)) as ->; [|done].
  unfold writtenFile, importDecl, importer_importDecl. simpl.
  by destruct (map_to_list (imports (g_importer g))).
Qed.

End Further.

(** * The generator on concrete fragments *)

Import RefLibs.

(** The reference parser rejects a second package clause. *)
Lemma parseFile_second_package_clause rest :
  exists diag, parseFile (header +:+ "package " +:+ rest) = inl diag.
Proof.
  unfold parseFile. cbv [header newline String.append].
  simpl. destruct (lines rest) as [|l tl]; simpl; eauto.
Qed.

(** C1 as stated fails: with [Foo] accepted, the fragment declaring [A]
    then [Foo] fails on [Foo], yet [A] stays appended and reserved. *)
Lemma collision_rollback_counterexample :
  (DeclareFromTemplate twoTypes (withName "Foo") afterFoo).2
  = Failed (CouldNotDeclareType "Foo" (NameCollisionError "Foo")) /\
  decls afterFoo = [fooDecl] /\
  decls (DeclareFromTemplate twoTypes (withName "Foo") afterFoo).1
  = [fooDecl; GenDecl (mkGenDecl TYPE [TypeSpec "A" " int32"])] /\
  decls (DeclareFromTemplate twoTypes (withName "Foo") afterFoo).1
  <> decls afterFoo /\
  reserved (DeclareFromTemplate twoTypes (withName "Foo") afterFoo).1
  <> reserved afterFoo.
Proof.
  split; [vm_compute; reflexivity|]. split; [vm_compute; reflexivity|].
  split; [vm_compute; reflexivity|]. split.
  - vm_compute. discriminate.
  - intros Heq.
    assert ("A" ∈ reserved afterFoo) as Hin.
    { rewrite <- Heq. apply (bool_decide_unpack _). vm_compute. exact I. }
    revert Hin. apply (bool_decide_unpack _). vm_compute. exact I.
Qed.

(** [collision_keeps_earlier_declarations] on that call. *)
Lemma collision_keeps_earlier_declarations_witness :
  fragment twoTypes (withName "Foo") afterFoo
  = Some (afterFoo,
          [GenDecl (mkGenDecl TYPE [TypeSpec "A" " int32"]); fooDecl]) /\
  DeclareFromTemplate twoTypes (withName "Foo") afterFoo
  = ((DeclareFromTemplate twoTypes (withName "Foo") afterFoo).1,
     Failed (CouldNotDeclareType "Foo" (NameCollisionError "Foo"))) /\
  exists pre d post g2,
    [GenDecl (mkGenDecl TYPE [TypeSpec "A" " int32"]); fooDecl]
    = pre ++ d :: post /\
    rangeOver declare pre afterFoo = (g2, Nil) /\
    recordDeclNames d g2
    = ((DeclareFromTemplate twoTypes (withName "Foo") afterFoo).1,
       Failed (CouldNotDeclareType "Foo" (NameCollisionError "Foo"))) /\
    decls (DeclareFromTemplate twoTypes (withName "Foo") afterFoo).1
    = decls afterFoo ++ pre /\
    reserved afterFoo
      ⊆ reserved (DeclareFromTemplate twoTypes (withName "Foo") afterFoo).1 /\
    (forall x, x ∈ declared pre ->
       x ∈ reserved
             (DeclareFromTemplate twoTypes (withName "Foo") afterFoo).1) /\
    (pre = [] -> forall name names,
        declNames d = name :: names ->
        available name (g_namespace afterFoo) = false ->
        (DeclareFromTemplate twoTypes (withName "Foo") afterFoo).1
        = afterFoo) /\
    (specsMatch d = true ->
     isNameCollision
       (CouldNotDeclareType "Foo" (NameCollisionError "Foo")) = true ->
     (decls (DeclareFromTemplate twoTypes (withName "Foo") afterFoo).1
      = decls afterFoo /\
      reserved (DeclareFromTemplate twoTypes (withName "Foo") afterFoo).1
      = reserved afterFoo)
     <-> (pre = [] /\
          exists name names,
            declNames d = name :: names /\
            available name (g_namespace afterFoo) = false)).
Proof.
  assert (fragment twoTypes (withName "Foo") afterFoo
          = Some (afterFoo,
                  [GenDecl (mkGenDecl TYPE [TypeSpec "A" " int32"]);
                   fooDecl])) as Hfrag.
  { vm_compute. reflexivity. }
  assert (DeclareFromTemplate twoTypes (withName "Foo") afterFoo
          = ((DeclareFromTemplate twoTypes (withName "Foo") afterFoo).1,
             Failed (CouldNotDeclareType "Foo" (NameCollisionError "Foo"))))
    as Hcall.
  { vm_compute. reflexivity. }
  split; [exact Hfrag|]. split; [exact Hcall|].
  exact (@collision_keeps_earlier_declarations RefLibs.libs
           _ _ _ _ _ _ _ Hfrag Hcall).
Defined.

(** C2 as stated fails: the template imports [go/ast], then refers to a
    field the data lacks; rendering fails, yet the alias [ast] stays
    reserved. *)
Lemma render_failure_reserves_counterexample :
  (TextTemplate importThenMissing [] NewGenerator).2
  = ("",
     Some (TemplateError
             "template: thriftrw: can't evaluate field Missing")) /\
  (DeclareFromTemplate importThenMissing [] NewGenerator).2
  = Failed (TemplateError
              "template: thriftrw: can't evaluate field Missing") /\
  reserved (DeclareFromTemplate importThenMissing [] NewGenerator).1
  <> reserved NewGenerator.
Proof.
  split; [vm_compute; reflexivity|]. split; [vm_compute; reflexivity|].
  intros Heq.
  assert ("ast" ∈ reserved NewGenerator) as Hin.
  { rewrite <- Heq. apply (bool_decide_unpack _). vm_compute. exact I. }
  revert Hin. apply (bool_decide_unpack _). vm_compute. exact I.
Qed.

(** [render_failure_appends_nothing] on that call. *)
Lemma render_failure_appends_nothing_witness :
  TextTemplate importThenMissing [] NewGenerator
  = (afterImport,
     ("", Some (TemplateError
                  "template: thriftrw: can't evaluate field Missing"))) /\
  DeclareFromTemplate importThenMissing [] NewGenerator
  = (afterImport,
     Failed (TemplateError
               "template: thriftrw: can't evaluate field Missing")) /\
  importsOnly NewGenerator afterImport.
Proof.
  assert (TextTemplate importThenMissing [] NewGenerator
          = (afterImport,
             ("", Some (TemplateError
                  "template: thriftrw: can't evaluate field Missing"))))
    as Htext.
  { vm_compute. reflexivity. }
  split; [exact Htext|].
  destruct (@render_failure_appends_nothing RefLibs.libs _ _ _ _ _ _ Htext)
    as (_ & Hcall & Himp & _).
  exact (conj Hcall Himp).
Defined.

(** [Write_keeps_acceptance_order] on three accepted fragments, one of
    which imports. *)
Lemma Write_keeps_acceptance_order_witness :
  acceptAll [(typeTemplate, withName "Foo"); (importThenVar, []);
             (methodTemplate, withName "Foo")] NewGenerator
  = Some (declareAll [(typeTemplate, withName "Foo"); (importThenVar, []);
                      (methodTemplate, withName "Foo")] NewGenerator,
          [fooDecl; varDecl;
           FuncDecl (Some "v *Foo") "String" "() string"]) /\
  Decls (writtenFile
           (declareAll [(typeTemplate, withName "Foo"); (importThenVar, []);
                        (methodTemplate, withName "Foo")] NewGenerator))
  = [GenDecl (mkGenDecl IMPORT [ImportSpec None "go/ast"]);
     fooDecl; varDecl; FuncDecl (Some "v *Foo") "String" "() string"].
Proof.
  assert (acceptAll [(typeTemplate, withName "Foo"); (importThenVar, []);
                     (methodTemplate, withName "Foo")] NewGenerator
  = Some (declareAll [(typeTemplate, withName "Foo"); (importThenVar, []);
                      (methodTemplate, withName "Foo")] NewGenerator,
          [fooDecl; varDecl;
           FuncDecl (Some "v *Foo") "String" "() string"])) as Hall.
  { vm_compute. reflexivity. }
  split; [exact Hall|].
  destruct (@Write_keeps_acceptance_order RefLibs.libs _ _ _ _ Hall)
    as (_ & _ & Hfile & _).
  exact Hfile.
Defined.

(** C4 as stated fails: the template imports [fmt] and renders a
    statement, which is no declaration; parsing fails, yet the alias [fmt]
    stays reserved. *)
Lemma parse_failure_reserves_counterexample :
  (TextTemplate importThenStatement [] NewGenerator).2
  = ("fmt.Println()", None) /\
  (DeclareFromTemplate importThenStatement [] NewGenerator).2
  = Failed (CouldNotParse "expected declaration, found 'fmt.Println()'"
              (header +:+ "fmt.Println()")) /\
  reserved (DeclareFromTemplate importThenStatement [] NewGenerator).1
  <> reserved NewGenerator.
Proof.
  split; [vm_compute; reflexivity|]. split; [vm_compute; reflexivity|].
  intros Heq.
  assert ("fmt" ∈ reserved NewGenerator) as Hin.
  { rewrite <- Heq. apply (bool_decide_unpack _). vm_compute. exact I. }
  revert Hin. apply (bool_decide_unpack _). vm_compute. exact I.
Qed.

(** [parse_failure_appends_nothing] on that call. *)
Lemma parse_failure_appends_nothing_witness :
  TextTemplate importThenStatement [] NewGenerator
  = ((Import "fmt" NewGenerator).2, ("fmt.Println()", None)) /\
  parser_ParseFile (header +:+ "fmt.Println()")
  = inl "expected declaration, found 'fmt.Println()'" /\
  DeclareFromTemplate importThenStatement [] NewGenerator
  = ((Import "fmt" NewGenerator).2,
     Failed (CouldNotParse "expected declaration, found 'fmt.Println()'"
               (header +:+ "fmt.Println()"))) /\
  importsOnly NewGenerator (Import "fmt" NewGenerator).2.
Proof.
  assert (TextTemplate importThenStatement [] NewGenerator
          = ((Import "fmt" NewGenerator).2, ("fmt.Println()", None)))
    as Htext.
  { vm_compute. reflexivity. }
  assert (parser_ParseFile (header +:+ "fmt.Println()")
          = inl "expected declaration, found 'fmt.Println()'") as Hparse.
  { vm_compute. reflexivity. }
  split; [exact Htext|]. split; [exact Hparse|].
  destruct (@parse_failure_appends_nothing RefLibs.libs _ _ _ _ _ _
              Htext Hparse) as (Hcall & _ & Himp).
  exact (conj Hcall Himp).
Defined.

(** [accepted_names_are_unique] on two fragments [type Foo int32]. *)
Lemma accepted_names_are_unique_witness :
  reachable NewGenerator /\
  fragment typeTemplate (withName "Foo") NewGenerator
  = Some (NewGenerator, [GenDecl (mkGenDecl TYPE [TypeSpec "Foo" " int32"])])
  /\
  available "Foo" (g_namespace NewGenerator) = true /\
  fragment typeTemplate (withName "Foo") afterFoo
  = Some (afterFoo, [GenDecl (mkGenDecl TYPE [TypeSpec "Foo" " int32"])]) /\
  (DeclareFromTemplate typeTemplate (withName "Foo") NewGenerator).2 = Nil /\
  DeclareFromTemplate typeTemplate (withName "Foo") afterFoo
  = (afterFoo, Failed (CouldNotDeclareType "Foo" (NameCollisionError "Foo")))
  /\
  decls afterFoo
  = decls NewGenerator
      ++ [GenDecl (mkGenDecl TYPE [TypeSpec "Foo" " int32"])] /\
  length (filter (fun d => "Foo" ∈ declNames d) (decls afterFoo)) = 1.
Proof.
  assert (fragment typeTemplate (withName "Foo") NewGenerator
          = Some (NewGenerator,
                  [GenDecl (mkGenDecl TYPE [TypeSpec "Foo" " int32"])]))
    as H1.
  { vm_compute. reflexivity. }
  assert (available "Foo" (g_namespace NewGenerator) = true) as Hav.
  { vm_compute. reflexivity. }
  assert (fragment typeTemplate (withName "Foo") afterFoo
          = Some (afterFoo,
                  [GenDecl (mkGenDecl TYPE [TypeSpec "Foo" " int32"])]))
    as H2.
  { vm_compute. reflexivity. }
  split; [exact reach_new|]. split; [exact H1|]. split; [exact Hav|].
  split; [exact H2|].
  exact (proj2 (proj2 (@accepted_names_are_unique RefLibs.libs))
           _ _ _ _ _ _ _ _ _ _ reach_new H1 Hav H2).
Defined.

(** [explicit_imports_reconciled] on a literal import that is accepted and
    on one whose name is already promised to generated code. *)
Lemma explicit_imports_reconciled_witness :
  (fragment literalImport [] NewGenerator
   = Some (NewGenerator,
           [] ++ GenDecl (mkGenDecl IMPORT [ImportSpec None "fmt"]) :: []) /\
   DeclareFromTemplate literalImport [] NewGenerator
   = ((DeclareFromTemplate literalImport [] NewGenerator).1, Nil) /\
   exists g2 g3,
     rangeOver declare [] NewGenerator = (g2, Nil) /\
     addedInOrder [ImportSpec None "fmt"] g2 g3 /\
     rangeOver declare []
       (appendDecl (GenDecl (mkGenDecl IMPORT [ImportSpec None "fmt"])) g3)
     = ((DeclareFromTemplate literalImport [] NewGenerator).1, Nil)) /\
  (fragment duplicateImport [] NewGenerator
   = Some (afterImport,
           [varDecl]
             ++ GenDecl (mkGenDecl IMPORT
                           ([] ++ ImportSpec None "go/ast" :: [])) :: []) /\
   rangeOver declare [varDecl] afterImport = (afterVar, Nil) /\
   addedInOrder [] afterVar afterVar /\
   AddImportSpec None "go/ast" afterVar
   = (afterVar, Some (DuplicateImportError "go/ast" "ast")) /\
   DeclareFromTemplate duplicateImport [] NewGenerator
   = (afterVar,
      Failed (CouldNotAddExplicitImport (ImportSpec None "go/ast")
                (DuplicateImportError "go/ast" "ast")))).
Proof.
  split.
  - assert (fragment literalImport [] NewGenerator
            = Some (NewGenerator,
                    [] ++ GenDecl (mkGenDecl IMPORT [ImportSpec None "fmt"])
                       :: [])) as Hfrag.
    { vm_compute. reflexivity. }
    assert (DeclareFromTemplate literalImport [] NewGenerator
            = ((DeclareFromTemplate literalImport [] NewGenerator).1, Nil))
      as Hcall.
    { vm_compute. reflexivity. }
    split; [exact Hfrag|]. split; [exact Hcall|].
    exact (proj1 (@explicit_imports_reconciled RefLibs.libs)
             _ _ _ _ _ _ _ _ Hfrag Hcall).
  - assert (fragment duplicateImport [] NewGenerator
            = Some (afterImport,
                    [varDecl]
                      ++ GenDecl (mkGenDecl IMPORT
                                    ([] ++ ImportSpec None "go/ast" :: []))
                         :: [])) as Hfrag.
    { vm_compute. reflexivity. }
    assert (rangeOver declare [varDecl] afterImport = (afterVar, Nil))
      as Hpre.
    { vm_compute. reflexivity. }
    assert (AddImportSpec None "go/ast" afterVar
            = (afterVar, Some (DuplicateImportError "go/ast" "ast")))
      as Hfail.
    { vm_compute. reflexivity. }
    split; [exact Hfrag|]. split; [exact Hpre|].
    split; [exact (added_nil afterVar)|]. split; [exact Hfail|].
    exact (proj1 (proj2 (@explicit_imports_reconciled RefLibs.libs)
                    _ _ _ _ _ _ _ _ _ _ _ _ _ _
                    Hfrag Hpre (added_nil afterVar) Hfail)).
Defined.

(** [Import_idempotent_and_distinct] on the paths [foo/bar] and
    [baz/bar]. *)
Lemma Import_idempotent_and_distinct_witness :
  reachable (libs := RefLibs.libs) NewGenerator /\
  "foo/bar" <> "baz/bar" /\
  (Import "foo/bar" NewGenerator).1 = "bar" /\
  (Import "foo/bar" (Import "foo/bar" NewGenerator).2).1 = "bar" /\
  (Import "baz/bar" (Import "foo/bar" NewGenerator).2).1
  <> (Import "foo/bar" NewGenerator).1.
Proof.
  assert ("foo/bar" <> "baz/bar") as Hne by discriminate.
  split; [exact reach_new|]. split; [exact Hne|].
  split; [vm_compute; reflexivity|].
  split.
  - exact (f_equal fst
             (proj1 (@Import_idempotent_and_distinct RefLibs.libs)
                NewGenerator "foo/bar")).
  - exact (proj2 (proj2 (@Import_idempotent_and_distinct RefLibs.libs)
                    NewGenerator "foo/bar" "baz/bar" reach_new) Hne).
Defined.

(** [method_names_not_reserved] on two fragments each defining a method
    [String]. *)
Lemma method_names_not_reserved_witness :
  fragment methodTemplate (withName "Foo") NewGenerator
  = Some (NewGenerator, [FuncDecl (Some "v *Foo") "String" "() string"]) /\
  fragment methodTemplate (withName "Bar")
    (DeclareFromTemplate methodTemplate (withName "Foo") NewGenerator).1
  = Some ((DeclareFromTemplate methodTemplate (withName "Foo")
             NewGenerator).1,
          [FuncDecl (Some "v *Bar") "String" "() string"]) /\
  (DeclareFromTemplate methodTemplate (withName "Foo") NewGenerator).2 = Nil /\
  (DeclareFromTemplate methodTemplate (withName "Bar")
     (DeclareFromTemplate methodTemplate (withName "Foo") NewGenerator).1).2
  = Nil /\
  decls (DeclareFromTemplate methodTemplate (withName "Bar")
           (DeclareFromTemplate methodTemplate (withName "Foo")
              NewGenerator).1).1
  = decls NewGenerator
      ++ [FuncDecl (Some "v *Foo") "String" "() string";
          FuncDecl (Some "v *Bar") "String" "() string"].
Proof.
  assert (fragment methodTemplate (withName "Foo") NewGenerator
          = Some (NewGenerator,
                  [FuncDecl (Some "v *Foo") "String" "() string"])) as H1.
  { vm_compute. reflexivity. }
  assert (fragment methodTemplate (withName "Bar")
            (DeclareFromTemplate methodTemplate (withName "Foo")
               NewGenerator).1
          = Some ((DeclareFromTemplate methodTemplate (withName "Foo")
                     NewGenerator).1,
                  [FuncDecl (Some "v *Bar") "String" "() string"])) as H2.
  { vm_compute. reflexivity. }
  split; [exact H1|]. split; [exact H2|].
  exact (proj2 (proj2 (@method_names_not_reserved RefLibs.libs))
           _ _ _ _ _ _ _ _ _ _ _ _ H1 H2).
Defined.

(** [parser_input_is_header_then_output] on a fragment that renders to
    [package other]. *)
Lemma parser_input_is_header_then_output_witness :
  TextTemplate packageTemplate (withName "other") NewGenerator
  = (NewGenerator, ("package other", None)) /\
  renderTemplate packageTemplate (withName "other") NewGenerator
  = (NewGenerator, (Some (header +:+ "package other"), None)) /\
  exists diag,
    DeclareFromTemplate packageTemplate (withName "other") NewGenerator
    = (NewGenerator,
       Failed (CouldNotParse diag (header +:+ "package other"))) /\
    decls NewGenerator = decls NewGenerator.
Proof.
  assert (TextTemplate packageTemplate (withName "other") NewGenerator
          = (NewGenerator, ("package other", None))) as Htext.
  { vm_compute. reflexivity. }
  split; [exact Htext|].
  destruct (@parser_input_is_header_then_output RefLibs.libs _ _ _ _ _ Htext)
    as (Hrender & _ & Hpackage).
  split; [exact Hrender|].
  exact (Hpackage parseFile_second_package_clause "other" eq_refl).
Defined.

(** [recordGenDeclNames_known_token] on a type declaration. *)
Lemma recordGenDeclNames_known_token_witness :
  (TYPE = IMPORT \/ TYPE = CONST \/ TYPE = TYPE \/ TYPE = VAR) /\
  forall d',
    (recordGenDeclNames (mkGenDecl TYPE [TypeSpec "Foo" " int32"])
       NewGenerator).2 <> Failed (UnknownDeclaration d').
Proof.
  split; [by right; right; left|].
  apply (recordGenDeclNames_known_token
           (mkGenDecl TYPE [TypeSpec "Foo" " int32"]) NewGenerator).
  by right; right; left.
Defined.

(** ** The further properties on concrete fragments *)

(** [matching_specs_never_panic] on [type Foo int32], and on a constant
    declaration holding a type spec. *)
Lemma matching_specs_never_panic_witness :
  (forall g1 ds,
      fragment typeTemplate (withName "Foo") NewGenerator = Some (g1, ds) ->
      Forall (fun d => specsMatch d = true) ds) /\
  (DeclareFromTemplate typeTemplate (withName "Foo") NewGenerator).2
  <> Panicked /\
  knownToken CONST = true /\
  specMatches CONST (TypeSpec "T" " int32") = false /\
  recordGenDeclNames (mkGenDecl CONST [TypeSpec "T" " int32"]) NewGenerator
  = (NewGenerator, Panicked).
Proof.
  assert (forall g1 ds,
      fragment typeTemplate (withName "Foo") NewGenerator = Some (g1, ds) ->
      Forall (fun d => specsMatch d = true) ds) as Hparser.
  { intros g1 ds Hfrag. vm_compute in Hfrag. injection Hfrag as _ <-.
    by repeat constructor. }
  split; [exact Hparser|].
  split; [exact (proj1 (@matching_specs_never_panic RefLibs.libs)
                   _ _ _ Hparser)|].
  split; [reflexivity|]. split; [reflexivity|].
  exact (proj2 (@matching_specs_never_panic RefLibs.libs)
           (mkGenDecl CONST [TypeSpec "T" " int32"]) NewGenerator
           (TypeSpec "T" " int32") [] eq_refl eq_refl eq_refl).
Defined.

(** [unknown_token_is_rejected] on a general declaration with the token
    FUNC, after [type Foo int32]. *)
Lemma unknown_token_is_rejected_witness :
  knownToken (Tok (mkGenDecl FUNC [])) = false /\
  rangeOver declare [fooDecl] NewGenerator = (afterFoo, Nil) /\
  recordGenDeclNames (mkGenDecl FUNC []) afterFoo
  = (afterFoo, Failed (UnknownDeclaration (mkGenDecl FUNC []))) /\
  rangeOver declare ([fooDecl] ++ GenDecl (mkGenDecl FUNC []) :: [varDecl])
    NewGenerator
  = (afterFoo, Failed (UnknownDeclaration (mkGenDecl FUNC []))) /\
  decls afterFoo = decls NewGenerator ++ [fooDecl].
Proof.
  assert (rangeOver declare [fooDecl] NewGenerator = (afterFoo, Nil))
    as Hpre.
  { vm_compute. reflexivity. }
  destruct (@unknown_token_is_rejected RefLibs.libs (mkGenDecl FUNC [])
              afterFoo eq_refl) as (Hrec & _ & Hloop).
  split; [reflexivity|]. split; [exact Hpre|]. split; [exact Hrec|].
  exact (Hloop [fooDecl] [varDecl] NewGenerator Hpre).
Defined.

(** [name_failure_anatomy] on [var a, Foo int] once [Foo] is declared. *)
Lemma name_failure_anatomy_witness :
  namesOnly (GenDecl (mkGenDecl VAR [ValueSpec ["a"; "Foo"] " int"])) = true
  /\
  recordDeclNames (GenDecl (mkGenDecl VAR [ValueSpec ["a"; "Foo"] " int"]))
    afterFoo
  = ((recordDeclNames
        (GenDecl (mkGenDecl VAR [ValueSpec ["a"; "Foo"] " int"]))
        afterFoo).1,
     Failed (CouldNotDeclareVar "Foo" (NameCollisionError "Foo"))) /\
  exists pre name post,
    declNames (GenDecl (mkGenDecl VAR [ValueSpec ["a"; "Foo"] " int"]))
    = pre ++ name :: post /\
    CouldNotDeclareVar "Foo" (NameCollisionError "Foo")
    = wrapOf (GenDecl (mkGenDecl VAR [ValueSpec ["a"; "Foo"] " int"]))
        name (NameCollisionError name) /\
    NoDup pre /\
    (forall x, x ∈ pre -> available x (g_namespace afterFoo) = true) /\
    (name ∈ pre \/ available name (g_namespace afterFoo) = false) /\
    available name
      (g_namespace
         (recordDeclNames
            (GenDecl (mkGenDecl VAR [ValueSpec ["a"; "Foo"] " int"]))
            afterFoo).1) = false /\
    reserved (recordDeclNames
                (GenDecl (mkGenDecl VAR [ValueSpec ["a"; "Foo"] " int"]))
                afterFoo).1
    = list_to_set pre ∪ reserved afterFoo /\
    decls (recordDeclNames
             (GenDecl (mkGenDecl VAR [ValueSpec ["a"; "Foo"] " int"]))
             afterFoo).1
    = decls afterFoo /\
    g_importer (recordDeclNames
                  (GenDecl (mkGenDecl VAR [ValueSpec ["a"; "Foo"] " int"]))
                  afterFoo).1
    = g_importer afterFoo.
Proof.
  assert (recordDeclNames
            (GenDecl (mkGenDecl VAR [ValueSpec ["a"; "Foo"] " int"]))
            afterFoo
          = ((recordDeclNames
                (GenDecl (mkGenDecl VAR [ValueSpec ["a"; "Foo"] " int"]))
                afterFoo).1,
             Failed (CouldNotDeclareVar "Foo" (NameCollisionError "Foo"))))
    as Hrec.
  { vm_compute. reflexivity. }
  split; [reflexivity|]. split; [exact Hrec|].
  exact (proj2 (name_failure_anatomy
                  (GenDecl (mkGenDecl VAR [ValueSpec ["a"; "Foo"] " int"]))
                  afterFoo _ _ eq_refl Hrec)).
Defined.

(** [fresh_names_are_accepted] on a fragment declaring [A] and [B]. *)
Lemma fresh_names_are_accepted_witness :
  fragment twoTypes (withName "B") NewGenerator
  = Some (NewGenerator,
          [GenDecl (mkGenDecl TYPE [TypeSpec "A" " int32"]);
           GenDecl (mkGenDecl TYPE [TypeSpec "B" " int32"])]) /\
  Forall (fun d => namesOnly d = true)
    [GenDecl (mkGenDecl TYPE [TypeSpec "A" " int32"]);
     GenDecl (mkGenDecl TYPE [TypeSpec "B" " int32"])] /\
  NoDup ["A"; "B"] /\
  (DeclareFromTemplate twoTypes (withName "B") NewGenerator).2 = Nil /\
  reserved (DeclareFromTemplate twoTypes (withName "B") NewGenerator).1
  = list_to_set ["A"; "B"] ∪ reserved NewGenerator.
Proof.
  assert (fragment twoTypes (withName "B") NewGenerator
          = Some (NewGenerator,
                  [GenDecl (mkGenDecl TYPE [TypeSpec "A" " int32"]);
                   GenDecl (mkGenDecl TYPE [TypeSpec "B" " int32"])]))
    as Hfrag.
  { vm_compute. reflexivity. }
  assert (Forall (fun d => namesOnly d = true)
            [GenDecl (mkGenDecl TYPE [TypeSpec "A" " int32"]);
             GenDecl (mkGenDecl TYPE [TypeSpec "B" " int32"])]) as Hall.
  { by repeat constructor. }
  assert (NoDup ["A"; "B"]) as Hnd.
  { apply (bool_decide_unpack _). vm_compute. exact I. }
  destruct (@fresh_names_are_accepted RefLibs.libs _ _ _ _ _ Hfrag Hall)
    as (Hiff & Hstate).
  assert ((DeclareFromTemplate twoTypes (withName "B") NewGenerator).2 = Nil)
    as Hnil.
  { apply Hiff. split; [exact Hnd|].
    intros x Hx. apply list_elem_of_In in Hx.
    destruct Hx as [<-|[<-|[]]]; reflexivity. }
  split; [exact Hfrag|]. split; [exact Hall|]. split; [exact Hnd|].
  split; [exact Hnil|]. exact (proj1 (proj2 (Hstate Hnil))).
Defined.

(** [declared_name_is_never_redeclared]: [Foo] is declared, a method is
    added, and a fragment declaring [A] and [Foo] comes last. *)
Lemma declared_name_is_never_redeclared_witness :
  fragment typeTemplate (withName "Foo") NewGenerator
  = Some (NewGenerator, [fooDecl]) /\
  (DeclareFromTemplate typeTemplate (withName "Foo") NewGenerator).2 = Nil /\
  "Foo" ∈ declared [fooDecl] /\
  fragment twoTypes (withName "Foo")
    (declareAll [(methodTemplate, withName "Foo")]
       (DeclareFromTemplate typeTemplate (withName "Foo") NewGenerator).1)
  = Some (declareAll [(methodTemplate, withName "Foo")] afterFoo,
          [GenDecl (mkGenDecl TYPE [TypeSpec "A" " int32"]); fooDecl]) /\
  "Foo" ∈ declared
            [GenDecl (mkGenDecl TYPE [TypeSpec "A" " int32"]); fooDecl] /\
  (DeclareFromTemplate twoTypes (withName "Foo")
     (declareAll [(methodTemplate, withName "Foo")]
        (DeclareFromTemplate typeTemplate (withName "Foo")
           NewGenerator).1)).2 <> Nil.
Proof.
  assert (fragment typeTemplate (withName "Foo") NewGenerator
          = Some (NewGenerator, [fooDecl])) as Hf1.
  { vm_compute. reflexivity. }
  assert ((DeclareFromTemplate typeTemplate (withName "Foo")
             NewGenerator).2 = Nil) as Hnil.
  { vm_compute. reflexivity. }
  assert ("Foo" ∈ declared [fooDecl]) as Hx1.
  { apply (bool_decide_unpack _). vm_compute. exact I. }
  assert (fragment twoTypes (withName "Foo")
            (declareAll [(methodTemplate, withName "Foo")]
               (DeclareFromTemplate typeTemplate (withName "Foo")
                  NewGenerator).1)
          = Some (declareAll [(methodTemplate, withName "Foo")] afterFoo,
                  [GenDecl (mkGenDecl TYPE [TypeSpec "A" " int32"]);
                   fooDecl])) as Hf2.
  { vm_compute. reflexivity. }
  assert ("Foo" ∈ declared
                    [GenDecl (mkGenDecl TYPE [TypeSpec "A" " int32"]);
                     fooDecl]) as Hx2.
  { apply (bool_decide_unpack _). vm_compute. exact I. }
  split; [exact Hf1|]. split; [exact Hnil|]. split; [exact Hx1|].
  split; [exact Hf2|]. split; [exact Hx2|].
  exact (proj2 (@declared_name_is_never_redeclared RefLibs.libs
                  _ _ _ _ _ _ _ _ _ _ _ Hf1 Hnil Hx1 Hf2 Hx2)).
Defined.

(** [aliases_never_clash_with_declarations] on the alias of [go/ast]. *)
Lemma aliases_never_clash_with_declarations_witness :
  reachable afterVar /\
  imports (g_importer afterVar) !! "go/ast" = Some "ast" /\
  ("ast" ∈ reserved afterVar) /\
  ("ast" ∉ declared (decls afterVar)) /\
  ("ast" ∉ declared (Decls (writtenFile afterVar))).
Proof.
  assert (reachable afterVar) as Hreach.
  { exact (reach_declare importThenVar [] NewGenerator reach_new). }
  assert (imports (g_importer afterVar) !! "go/ast" = Some "ast") as Hlook.
  { vm_compute. reflexivity. }
  exact (conj Hreach
           (conj Hlook
              (aliases_never_clash_with_declarations afterVar Hreach
                 "go/ast" "ast" Hlook))).
Defined.
